(** * use-intl: validation of namespace keys in [IntlProvider]

    A shallow embedding of [packages/use-intl/src/IntlProvider.tsx]:
    the default message fallback [defaultGetMessageFallback], and the
    development-mode validation of the messages object
    ([validateMessagesSegment] and [validateMessages]), which reports
    the keys that contain the character "." through the [onError]
    callback.

    The first part holds the definitions: the JavaScript values and
    built-ins the source uses, the functions of the source over messages
    given as trees, the shapes of messages the statements speak about,
    the order in which an object lists its properties, and the same
    functions over a store of objects, where [push] updates the array of
    labels in place.  The second part holds the properties.

    The component itself (the context provider, [useEffect] and the
    [__DEV__] flag) and [defaultOnError], which calls [console.error],
    are not embedded. *)

From Stdlib Require Import List String Ascii Bool Arith ZArith NArith Lia.
From Stdlib Require Import DecimalString Permutation Sorted.
Import ListNotations.
Local Open Scope string_scope.
Local Open Scope list_scope.

(** ** JavaScript strings and arrays of optional strings *)

Module Js.

(** [s.startsWith(sub)]. *)
Fixpoint startsWith (s sub : string) : bool :=
  match sub, s with
  | EmptyString, _ => true
  | String _ _, EmptyString => false
  | String a sub', String b s' => Ascii.eqb a b && startsWith s' sub'
  end.

(** [s.includes(sub)]: [sub] occurs in [s] at some position. *)
Fixpoint includes (s sub : string) : bool :=
  startsWith s sub ||
  match s with
  | EmptyString => false
  | String _ rest => includes rest sub
  end.

(** A value of a TypeScript type [A | undefined | null]. *)
Inductive Nullable (A : Type) : Type :=
| Undefined
| Null
| Defined (a : A).

Arguments Undefined {A}.
Arguments Null {A}.
Arguments Defined {A} a.

(** [part != null]: loose inequality, false for both [undefined] and [null]. *)
Definition notNull {A : Type} (part : Nullable A) : bool :=
  match part with
  | Defined _ => true
  | Undefined | Null => false
  end.

(** The string an array element contributes to [Array.prototype.join]:
    [undefined] and [null] contribute the empty string. *)
Definition joinElement (part : Nullable string) : string :=
  match part with
  | Defined s => s
  | Undefined | Null => ""
  end.

(** [parts.join(sep)]. *)
Definition join (sep : string) (parts : list (Nullable string)) : string :=
  String.concat sep (map joinElement parts).

(** Truthiness of an optional string, as tested by [if (parentPath)]:
    [undefined], [null] and the empty string are falsy. *)
Definition truthyString (s : Nullable string) : bool :=
  match s with
  | Defined EmptyString => false
  | Defined _ => true
  | Undefined | Null => false
  end.

(** ** JavaScript values *)

#[local] Unset Elimination Schemes.
(** The values a messages object can hold at run time (for instance
    after [JSON.parse]).  An object is given by its own enumerable
    string-keyed properties, listed in the order in which
    [Object.entries] reports them; a number is represented by an
    integer, the validation only looks at its [typeof]. *)
Inductive Value : Type :=
| JsUndefined
| JsNull
| JsBoolean (b : bool)
| JsNumber (n : Z)
| JsString (s : string)
| JsArray (elements : list Value)
| JsObject (properties : list (string * Value)).
#[local] Set Elimination Schemes.

(** [typeof v]. *)
Definition typeof (v : Value) : string :=
  match v with
  | JsUndefined => "undefined"
  | JsNull => "object"
  | JsBoolean _ => "boolean"
  | JsNumber _ => "number"
  | JsString _ => "string"
  | JsArray _ => "object"
  | JsObject _ => "object"
  end.

(** Truthiness of a value, as tested by [!messages]. *)
Definition truthy (v : Value) : bool :=
  match v with
  | JsUndefined | JsNull => false
  | JsBoolean b => b
  | JsNumber n => negb (Z.eqb n 0)
  | JsString s => negb (String.eqb s "")
  | JsArray _ | JsObject _ => true
  end.

(** Exceptions raised by the built-ins the validation calls. *)
Inductive Exception : Type :=
| TypeError.

(** The outcome of evaluating a statement or call. *)
Inductive Completion (A : Type) : Type :=
| Normal (a : A)
| Throw (e : Exception).

Arguments Normal {A} a.
Arguments Throw {A} e.

Definition bind {A B : Type} (c : Completion A) (k : A -> Completion B)
  : Completion B :=
  match c with
  | Normal a => k a
  | Throw e => Throw e
  end.

(** The key under which an array or a string exposes its [i]-th element:
    the decimal numeral of [i]. *)
Definition indexKey (i : nat) : string :=
  NilEmpty.string_of_uint (Nat.to_uint i).

(** Array elements paired with their index keys, counting from [i]. *)
Fixpoint indexedFrom {A : Type} (i : nat) (elements : list A)
  : list (string * A) :=
  match elements with
  | [] => []
  | x :: rest => (indexKey i, x) :: indexedFrom (S i) rest
  end.

(** The characters of a string as one-character strings. *)
Fixpoint characters (s : string) : list Value :=
  match s with
  | EmptyString => []
  | String c rest => JsString (String c EmptyString) :: characters rest
  end.

(** [Object.entries(v)]: throws on [undefined] and [null], is empty for
    booleans and numbers, lists index/character pairs for a string,
    index/element pairs for an array, and the own properties of an
    object. *)
Definition entries (v : Value) : Completion (list (string * Value)) :=
  match v with
  | JsUndefined | JsNull => Throw TypeError
  | JsBoolean _ | JsNumber _ => Normal []
  | JsString s => Normal (indexedFrom 0 (characters s))
  | JsArray elements => Normal (indexedFrom 0 elements)
  | JsObject properties => Normal properties
  end.

(** [array.forEach(callback)] for a callback that updates a state [S] and
    may throw: the elements are visited in order, a throw ends the loop. *)
Fixpoint forEach {A S : Type} (callback : A -> S -> Completion S)
  (array : list A) (s : S) : Completion S :=
  match array with
  | [] => Normal s
  | x :: rest => bind (callback x s) (forEach callback rest)
  end.

End Js.

Import Js.

(** ** The source: [IntlProvider.tsx] *)

(** [defaultGetMessageFallback({key, namespace})]. *)
Definition defaultGetMessageFallback (key : string)
  (namespace : Nullable string) : string :=
  join "." (filter notNull [namespace; Defined key]).

(** The label pushed for [key] when it contains ".": the key, followed by
    [" (at " ++ parentPath ++ ")"] when [parentPath] is truthy. *)
Definition keyLabel (key : string) (parentPath : Nullable string) : string :=
  if truthyString parentPath
  then key ++ " (at " ++ joinElement parentPath ++ ")"
  else key.

(** The parent path handed to the recursive call for the value of [key]. *)
Definition childPath (parentPath : Nullable string) (key : string)
  : Nullable string :=
  Defined (join "." (filter notNull [parentPath; Defined key])).

(** The body of the arrow function given to [forEach] in
    [validateMessagesSegment]; [recurse] stands for the recursive call on
    [messageOrMessages].  The state is the content of the array
    [invalidKeyLabels], to which [push] appends. *)
Definition visitEntry (parentPath : Nullable string)
  (key : string) (messageOrMessages : Value)
  (recurse : list string -> Nullable string -> Completion (list string))
  (invalidKeyLabels : list string) : Completion (list string) :=
  let invalidKeyLabels :=
    if includes key "."
    then invalidKeyLabels ++ [keyLabel key parentPath]
    else invalidKeyLabels in
  if String.eqb (typeof messageOrMessages) "object"
  then recurse invalidKeyLabels (childPath parentPath key)
  else Normal invalidKeyLabels.

(** [validateMessagesSegment(messagesPart, invalidKeyLabels, parentPath)].
    The result is the content of [invalidKeyLabels] when the call
    returns.  The loops over the entries are written out per kind of
    value so that the recursion is structural; [validateMessagesSegment_eq]
    below gives the equation that reads like the source. *)
Fixpoint validateMessagesSegment (messagesPart : Value)
  (invalidKeyLabels : list string) (parentPath : Nullable string)
  {struct messagesPart} : Completion (list string) :=
  match messagesPart with
  | JsUndefined | JsNull => Throw TypeError
  | JsBoolean _ | JsNumber _ => Normal invalidKeyLabels
  | JsString s =>
      forEach
        (fun '(key, messageOrMessages) =>
           visitEntry parentPath key messageOrMessages
             (fun labels _ => Normal labels))
        (indexedFrom 0 (characters s)) invalidKeyLabels
  | JsArray elements =>
      (fix loop (i : nat) (array : list Value) (labels : list string)
         : Completion (list string) :=
         match array with
         | [] => Normal labels
         | messageOrMessages :: rest =>
             bind
               (visitEntry parentPath (indexKey i) messageOrMessages
                  (validateMessagesSegment messageOrMessages) labels)
               (loop (S i) rest)
         end) 0 elements invalidKeyLabels
  | JsObject properties =>
      (fix loop (array : list (string * Value)) (labels : list string)
         : Completion (list string) :=
         match array with
         | [] => Normal labels
         | (key, messageOrMessages) :: rest =>
             bind
               (visitEntry parentPath key messageOrMessages
                  (validateMessagesSegment messageOrMessages) labels)
               (loop rest)
         end) properties invalidKeyLabels
  end.

(** The arrow function of [validateMessagesSegment], with its recursive
    call. *)
Definition segmentCallback (parentPath : Nullable string)
  (entry : string * Value) (invalidKeyLabels : list string)
  : Completion (list string) :=
  let '(key, messageOrMessages) := entry in
  visitEntry parentPath key messageOrMessages
    (validateMessagesSegment messageOrMessages) invalidKeyLabels.

(** Modelled from the spec: the enumeration [IntlErrorCode] is declared in
    [IntlError.ts], outside this file.  The validation uses its member
    [INVALID_KEY], the "invalid key" error kind; the other members are
    told apart by their name. *)
Inductive IntlErrorCode : Type :=
| INVALID_KEY
| OtherErrorCode (name : string).

(** Modelled from the spec: the class [IntlError] is declared in
    [IntlError.ts], outside this file.  A diagnostic carries the error
    kind and the message given to [new IntlError(code, message)]. *)
Record IntlError : Type := newIntlError {
  code : IntlErrorCode;
  message : string
}.

(** The text before the word "key" or "keys" in the diagnostic. *)
Definition invalidKeyPreamble : string :=
  "Namespace keys can not contain the character "
  ++ String (ascii_of_nat 34) ("." ++ String (ascii_of_nat 34)
  (" as this is used to express nesting. Please remove it or replace it with another character."
  ++ String (ascii_of_nat 10) (String (ascii_of_nat 10) "Invalid "))).

(** The template literal passed to [new IntlError]. *)
Definition invalidKeyMessage (invalidKeyLabels : list string) : string :=
  invalidKeyPreamble
  ++ (if Nat.eqb (List.length invalidKeyLabels) 1 then "key" else "keys")
  ++ ": " ++ join ", " (map Defined invalidKeyLabels).

(** [onError(error)]: the callback belongs to the host application; its
    invocations are recorded, in order, in a log. *)
Definition onError (error : IntlError) (log : list IntlError)
  : list IntlError :=
  log ++ [error].

(** What a run of [validateMessages] leaves behind: the labels it
    collected in its array [invalidKeyLabels] (none when the array was
    never created), and the log of the invocations of [onError]. *)
Record Run : Type := {
  collected : list string;
  reported : list IntlError
}.

(** [validateMessages()], for the [messages] and the [onError] of the
    enclosing [IntlProvider]; [log] holds the earlier invocations of
    [onError]. *)
Definition validateMessages (messages : Value) (log : list IntlError)
  : Completion Run :=
  if negb (truthy messages)
  then Normal {| collected := []; reported := log |}
  else
    bind (validateMessagesSegment messages [] Undefined)
      (fun invalidKeyLabels =>
         if Nat.ltb 0 (List.length invalidKeyLabels)
         then Normal
                {| collected := invalidKeyLabels;
                   reported :=
                     onError
                       (newIntlError INVALID_KEY
                          (invalidKeyMessage invalidKeyLabels))
                       log |}
         else Normal {| collected := invalidKeyLabels; reported := log |}).

(** ** Shapes of messages *)

(** Some value inside [v], at any depth, is [null]. *)
Fixpoint hasNull (v : Value) : bool :=
  match v with
  | JsNull => true
  | JsArray elements => existsb hasNull elements
  | JsObject properties =>
      existsb (fun entry => hasNull (snd entry)) properties
  | _ => false
  end.

(** A messages dictionary: an object each of whose values is either a
    leaf (a primitive such as a string, whose [typeof] is not "object")
    or again a messages dictionary. *)
Fixpoint isDictionary (v : Value) : bool :=
  match v with
  | JsObject properties =>
      forallb
        (fun entry =>
           negb (String.eqb (typeof (snd entry)) "object")
           || isDictionary (snd entry))
        properties
  | _ => false
  end.

(** Every key of a dictionary, at any depth, with the chain of its
    ancestor keys (outermost first); only objects count as nested
    dictionaries. *)
Fixpoint keyOccurrences (ancestors : list string) (dictionary : Value)
  : list (list string * string) :=
  match dictionary with
  | JsObject properties =>
      flat_map
        (fun entry =>
           (ancestors, fst entry)
           :: keyOccurrences (ancestors ++ [fst entry]) (snd entry))
        properties
  | _ => []
  end.

(** The key of an occurrence contains the character ".". *)
Definition offending (occurrence : list string * string) : bool :=
  includes (snd occurrence) ".".

(** The label of an occurrence whose ancestor keys, joined by ".", give
    a non-empty path: the key followed by the path; otherwise the key. *)
Definition occurrenceLabel (occurrence : list string * string) : string :=
  let '(ancestors, key) := occurrence in
  match String.concat "." ancestors with
  | EmptyString => key
  | path => key ++ " (at " ++ path ++ ")"
  end.

(** The label of an occurrence when every key that has an ancestor gets
    the suffix. *)
Definition suffixedLabel (occurrence : list string * string) : string :=
  let '(ancestors, key) := occurrence in
  match ancestors with
  | [] => key
  | _ => key ++ " (at " ++ String.concat "." ancestors ++ ")"
  end.

(** Two values have the same nested key structure and differ at most in
    the contents of their strings. *)
Fixpoint sameShape (a b : Value) {struct a} : bool :=
  match a, b with
  | JsUndefined, JsUndefined => true
  | JsNull, JsNull => true
  | JsBoolean x, JsBoolean y => Bool.eqb x y
  | JsNumber x, JsNumber y => Z.eqb x y
  | JsString _, JsString _ => true
  | JsArray xs, JsArray ys =>
      (fix all (xs ys : list Value) : bool :=
         match xs, ys with
         | [], [] => true
         | x :: xs', y :: ys' => sameShape x y && all xs' ys'
         | _, _ => false
         end) xs ys
  | JsObject ps, JsObject qs =>
      (fix all (ps qs : list (string * Value)) : bool :=
         match ps, qs with
         | [], [] => true
         | p :: ps', q :: qs' =>
             String.eqb (fst p) (fst q) && sameShape (snd p) (snd q)
             && all ps' qs'
         | _, _ => false
         end) ps qs
  | _, _ => false
  end.

(** ** Induction over values *)

Section ValueInduction.

Variable P : Value -> Prop.
Hypothesis P_undefined : P JsUndefined.
Hypothesis P_null : P JsNull.
Hypothesis P_boolean : forall b, P (JsBoolean b).
Hypothesis P_number : forall n, P (JsNumber n).
Hypothesis P_string : forall s, P (JsString s).
Hypothesis P_array :
  forall elements, Forall P elements -> P (JsArray elements).
Hypothesis P_object :
  forall properties,
    Forall (fun entry => P (snd entry)) properties ->
    P (JsObject properties).

Fixpoint Value_ind (v : Value) : P v :=
  match v with
  | JsUndefined => P_undefined
  | JsNull => P_null
  | JsBoolean b => P_boolean b
  | JsNumber n => P_number n
  | JsString s => P_string s
  | JsArray elements =>
      P_array elements
        ((fix all (l : list Value) : Forall P l :=
            match l with
            | [] => Forall_nil P
            | x :: rest => Forall_cons x (Value_ind x) (all rest)
            end) elements)
  | JsObject properties =>
      P_object properties
        ((fix all (l : list (string * Value))
            : Forall (fun entry => P (snd entry)) l :=
            match l with
            | [] => Forall_nil _
            | entry :: rest =>
                Forall_cons entry (Value_ind (snd entry)) (all rest)
            end) properties)
  end.

End ValueInduction.

(** The parent path under which the entries of a dictionary with the
    given ancestor keys are walked. *)
Definition pathOf (ancestors : list string) : Nullable string :=
  match ancestors with
  | [] => Undefined
  | _ :: _ => Defined (String.concat "." ancestors)
  end.

(** Every key the walk visits, at any depth, with the chain of its
    ancestor keys: the keys of objects and, for arrays, the index keys
    of their elements. *)
Fixpoint walkedKeys (ancestors : list string) (v : Value)
  : list (list string * string) :=
  match v with
  | JsObject properties =>
      flat_map
        (fun entry =>
           (ancestors, fst entry)
           :: walkedKeys (ancestors ++ [fst entry]) (snd entry))
        properties
  | JsArray elements =>
      (fix walk (i : nat) (l : list Value) : list (list string * string) :=
         match l with
         | [] => []
         | x :: rest =>
             (ancestors, indexKey i)
             :: walkedKeys (ancestors ++ [indexKey i]) x
             ++ walk (S i) rest
         end) 0 elements
  | _ => []
  end.

(** ** The order of the properties of an object

    [Object.entries] lists the own properties of an ordinary object in
    the order of [OrdinaryOwnPropertyKeys]: first the keys that are array
    indices, in ascending numeric order, then the other string keys in
    the order in which the properties were created. *)

(** The array index a property key denotes, if any: the key is the
    canonical decimal numeral of an integer below 2^32 - 1. *)
Definition arrayIndex (key : string) : option N :=
  match NilEmpty.uint_of_string key with
  | Some d =>
      let n := N.of_uint d in
      if String.eqb (NilEmpty.string_of_uint (N.to_uint n)) key
         && N.ltb n 4294967295
      then Some n
      else None
  | None => None
  end.

Definition isArrayIndex (key : string) : bool :=
  match arrayIndex key with
  | Some _ => true
  | None => false
  end.

(** A property created under [key] is listed before the property
    [existing]. *)
Definition listedBefore (key existing : string) : bool :=
  match arrayIndex key, arrayIndex existing with
  | Some i, Some j => N.ltb i j
  | Some _, None => true
  | None, _ => false
  end.

(** Creating or setting the property [key] of an object whose properties
    are [properties]: an existing property keeps its place, a new one
    takes the place its key gives it. *)
Fixpoint defineProperty (key : string) (value : Value)
  (properties : list (string * Value)) : list (string * Value) :=
  match properties with
  | [] => [(key, value)]
  | (k, v) :: rest =>
      if String.eqb k key then (key, value) :: rest
      else if listedBefore key k then (key, value) :: (k, v) :: rest
      else (k, v) :: defineProperty key value rest
  end.

(** The object obtained by creating the given properties one after the
    other, as an object literal or [JSON.parse] does: [insertions] is
    the insertion order. *)
Definition objectOf (insertions : list (string * Value)) : Value :=
  JsObject
    (fold_left
       (fun properties entry =>
          defineProperty (fst entry) (snd entry) properties)
       insertions []).

(** The entry [a] has a smaller array index than the entry [b]. *)
Definition indexBelow (a b : string * Value) : Prop :=
  match arrayIndex (fst a), arrayIndex (fst b) with
  | Some i, Some j => (i < j)%N
  | _, _ => False
  end.

(** The labels a completed walk returned; none if it threw. *)
Definition labelsOf (c : Completion (list string)) : list string :=
  match c with
  | Normal labels => labels
  | Throw _ => []
  end.

(** What one entry of a dictionary contributes: the label of its own key
    if the key is offending, followed by the labels of the walk of its
    value if that is walked. *)
Definition entryLabels (parentPath : Nullable string)
  (entry : string * Value) : list string :=
  (if includes (fst entry) "."
   then [keyLabel (fst entry) parentPath]
   else [])
  ++ (if String.eqb (typeof (snd entry)) "object"
      then labelsOf
             (validateMessagesSegment (snd entry) []
                (childPath parentPath (fst entry)))
      else []).

(** ** The validation over a store of objects

    In JavaScript the messages and the array [invalidKeyLabels] are
    objects in a store, handed around by reference; [push] updates the
    array in place.  This second embedding of the same two functions
    keeps the store explicit.  A location is a position in the store. *)

Module Heap.

Definition Location : Type := nat.

(** What a variable, a property or an array element holds: a primitive
    value or the location of an object. *)
Inductive Ref : Type :=
| RUndefined
| RNull
| RBoolean (b : bool)
| RNumber (n : Z)
| RString (s : string)
| RObject (address : Location).

(** An object in the store: an array or an ordinary object. *)
Inductive Cell : Type :=
| ArrayCell (elements : list Ref)
| ObjectCell (properties : list (string * Ref)).

(** The store, and the log of the invocations of [onError]. *)
Record State : Type := {
  heap : list Cell;
  log : list IntlError
}.

(** The outcome of a call: it returns, it throws, or it is no execution
    that this embedding follows to its end (the fuel that bounds the
    depth of the recursion ran out, or a location was not in the
    store). *)
Inductive Outcome : Type :=
| Returns (st : State)
| Throws (e : Exception) (st : State)
| Aborts.

Definition typeof (v : Ref) : string :=
  match v with
  | RUndefined => "undefined"
  | RNull => "object"
  | RBoolean _ => "boolean"
  | RNumber _ => "number"
  | RString _ => "string"
  | RObject _ => "object"
  end.

Definition truthy (v : Ref) : bool :=
  match v with
  | RUndefined | RNull => false
  | RBoolean b => b
  | RNumber n => negb (Z.eqb n 0)
  | RString s => negb (String.eqb s "")
  | RObject _ => true
  end.

Fixpoint update (cells : list Cell) (l : Location) (c : Cell) : list Cell :=
  match cells, l with
  | [], _ => []
  | _ :: rest, 0 => c :: rest
  | x :: rest, S l' => x :: update rest l' c
  end.

Fixpoint characters (s : string) : list Ref :=
  match s with
  | EmptyString => []
  | String c rest => RString (String c EmptyString) :: characters rest
  end.

(** [Object.entries(v)]: a snapshot of the entries of [v]. *)
Definition entries (cells : list Cell) (v : Ref)
  : option (Completion (list (string * Ref))) :=
  match v with
  | RUndefined | RNull => Some (Throw TypeError)
  | RBoolean _ | RNumber _ => Some (Normal [])
  | RString s => Some (Normal (indexedFrom 0 (characters s)))
  | RObject l =>
      match nth_error cells l with
      | Some (ArrayCell elements) => Some (Normal (indexedFrom 0 elements))
      | Some (ObjectCell properties) => Some (Normal properties)
      | None => None
      end
  end.

(** [array.push(label)]: the array at [array] gets one more element; an
    ordinary object has no [push]. *)
Definition push (array : Location) (label : string) (st : State) : Outcome :=
  match nth_error (heap st) array with
  | Some (ArrayCell elements) =>
      Returns
        {| heap :=
             update (heap st) array (ArrayCell (elements ++ [RString label]));
           log := log st |}
  | Some (ObjectCell _) => Throws TypeError st
  | None => Aborts
  end.

Definition andThen (o : Outcome) (k : State -> Outcome) : Outcome :=
  match o with
  | Returns st => k st
  | Throws e st => Throws e st
  | Aborts => Aborts
  end.

Fixpoint forEach {A : Type} (callback : A -> State -> Outcome)
  (array : list A) (st : State) : Outcome :=
  match array with
  | [] => Returns st
  | x :: rest => andThen (callback x st) (forEach callback rest)
  end.

(** The body of the arrow function given to [forEach]; [recurse] stands
    for the recursive call on [messageOrMessages]. *)
Definition visitEntry (invalidKeyLabels : Location)
  (parentPath : Nullable string) (key : string) (messageOrMessages : Ref)
  (recurse : Nullable string -> State -> Outcome) (st : State) : Outcome :=
  andThen
    (if includes key "."
     then push invalidKeyLabels (keyLabel key parentPath) st
     else Returns st)
    (fun st =>
       if String.eqb (typeof messageOrMessages) "object"
       then recurse (childPath parentPath key) st
       else Returns st).

(** [validateMessagesSegment(messagesPart, invalidKeyLabels, parentPath)];
    [fuel] bounds the depth of the recursion. *)
Fixpoint validateMessagesSegment (fuel : nat) (messagesPart : Ref)
  (invalidKeyLabels : Location) (parentPath : Nullable string) (st : State)
  : Outcome :=
  match fuel with
  | 0 => Aborts
  | S fuel =>
      match entries (heap st) messagesPart with
      | None => Aborts
      | Some (Throw e) => Throws e st
      | Some (Normal array) =>
          forEach
            (fun entry =>
               visitEntry invalidKeyLabels parentPath (fst entry) (snd entry)
                 (validateMessagesSegment fuel (snd entry) invalidKeyLabels))
            array st
      end
  end.

(** The strings an array of strings holds. *)
Fixpoint strings (elements : list Ref) : option (list string) :=
  match elements with
  | [] => Some []
  | RString s :: rest => option_map (cons s) (strings rest)
  | _ :: _ => None
  end.

(** [validateMessages()]: [invalidKeyLabels] is a new, empty array. *)
Definition validateMessages (fuel : nat) (messages : Ref) (st : State)
  : Outcome :=
  if negb (truthy messages) then Returns st
  else
    let invalidKeyLabels := List.length (heap st) in
    andThen
      (validateMessagesSegment fuel messages invalidKeyLabels Undefined
         {| heap := heap st ++ [ArrayCell []]; log := log st |})
      (fun st =>
         match nth_error (heap st) invalidKeyLabels with
         | Some (ArrayCell elements) =>
             match strings elements with
             | Some labels =>
                 if Nat.ltb 0 (List.length labels)
                 then Returns
                        {| heap := heap st;
                           log :=
                             onError
                               (newIntlError INVALID_KEY
                                  (invalidKeyMessage labels))
                               (log st) |}
                 else Returns st
             | None => Aborts
             end
         | _ => Aborts
         end).

#[local] Unset Elimination Schemes.
(** The value [v] of the store [cells] is the root of the tree [t]. *)
Inductive represents (cells : list Cell) : Ref -> Value -> Prop :=
| represents_undefined : represents cells RUndefined JsUndefined
| represents_null : represents cells RNull JsNull
| represents_boolean b : represents cells (RBoolean b) (JsBoolean b)
| represents_number n : represents cells (RNumber n) (JsNumber n)
| represents_string s : represents cells (RString s) (JsString s)
| represents_array l refs elements :
    nth_error cells l = Some (ArrayCell refs) ->
    Forall2 (represents cells) refs elements ->
    represents cells (RObject l) (JsArray elements)
| represents_object l slots properties :
    nth_error cells l = Some (ObjectCell slots) ->
    Forall2
      (fun slot property =>
         fst slot = fst property /\
         represents cells (snd slot) (snd property))
      slots properties ->
    represents cells (RObject l) (JsObject properties).
#[local] Set Elimination Schemes.

(** The array of strings [labels] as a cell. *)
Definition labelsCell (labels : list string) : Cell :=
  ArrayCell (map RString labels).

End Heap.

(** The number of nested calls the walk of a value makes. *)
Fixpoint depth (v : Value) : nat :=
  match v with
  | JsArray elements =>
      S (fold_right (fun x d => Nat.max (depth x) d) 0 elements)
  | JsObject properties =>
      S (fold_right (fun entry d => Nat.max (depth (snd entry)) d) 0
           properties)
  | _ => 1
  end.

(** ** Notions used in the statements and proofs below *)

(** The completion [c], with its labels appended to [invalidKeyLabels]. *)
Definition appended (invalidKeyLabels : list string)
  (c : Completion (list string)) : Completion (list string) :=
  bind c (fun new => Normal (invalidKeyLabels ++ new)).

(** The state [st] still holds the store [cells] in which the messages
    live, and the array [invalidKeyLabels], outside it, holds [labels]. *)
Definition ready (cells : list Heap.Cell) (invalidKeyLabels : Heap.Location)
  (labels : list string) (st : Heap.State) : Prop :=
  (forall l, l < List.length cells ->
             nth_error (Heap.heap st) l = nth_error cells l) /\
  List.length cells <= invalidKeyLabels /\
  nth_error (Heap.heap st) invalidKeyLabels = Some (Heap.labelsCell labels).

(** The state [st] with the array [invalidKeyLabels] holding [labels]. *)
Definition withLabels (invalidKeyLabels : Heap.Location)
  (labels : list string) (st : Heap.State) : Heap.State :=
  {| Heap.heap :=
       Heap.update (Heap.heap st) invalidKeyLabels (Heap.labelsCell labels);
     Heap.log := Heap.log st |}.

(** The outcome [o] of a call started in [st] is what the walk of the
    tree gives: the same completion, with nothing but the array of
    labels changed in the store. *)
Definition simulates (invalidKeyLabels : Heap.Location) (st : Heap.State)
  (c : Completion (list string)) (o : Heap.Outcome) : Prop :=
  match c with
  | Normal labels => o = Heap.Returns (withLabels invalidKeyLabels labels st)
  | Throw e =>
      exists labels,
        o = Heap.Throws e (withLabels invalidKeyLabels labels st)
  end.

(** The errors a run passes to [onError] for the labels it collected. *)
Definition reportOf (labels : list string) : list IntlError :=
  match labels with
  | [] => []
  | _ :: _ => [newIntlError INVALID_KEY (invalidKeyMessage labels)]
  end.

(** The outcome [o] of a call started in [st] differs from [st] at most
    in the cell at [invalidKeyLabels]: the log and all other cells are
    as they were, and no cell was created or removed. *)
Definition framed (invalidKeyLabels : Heap.Location) (st : Heap.State)
  (o : Heap.Outcome) : Prop :=
  match o with
  | Heap.Returns st' | Heap.Throws _ st' =>
      Heap.log st' = Heap.log st /\
      List.length (Heap.heap st') = List.length (Heap.heap st) /\
      forall l, l <> invalidKeyLabels ->
                nth_error (Heap.heap st') l = nth_error (Heap.heap st) l
  | Heap.Aborts => True
  end.

(** ** The provider

    [IntlProvider] takes its callbacks from its props, registers the
    validation as an effect when [__DEV__] is set, and hands the
    resolved configuration to its children.  A callback of the host
    application is a function on the state of the world that may throw;
    the world holds what [console.error] has printed and the state of
    the host application.  What React does with the effect (when it
    runs it, given its dependencies [messages] and [onError]) and with
    the returned element is not part of this embedding. *)

Module Provider.

Section WithHost.

(** The state of the host application, the type of React nodes, and the
    props that are passed on as they are (locale, formats, timeZone,
    now, defaultTranslationValues). *)
Variables (Host Node ContextValues : Type).

Record World : Type := {
  console : list IntlError;
  host : Host
}.

(** A function of type [(error: IntlError) => void]. *)
Definition Handler : Type := IntlError -> World -> Completion World.

(** The argument of [getMessageFallback]. *)
Record Info : Type := {
  namespace : Nullable string;
  key : string;
  error : IntlError
}.

(** [console.error(error)]. *)
Definition consoleError (error : IntlError) (w : World) : World :=
  {| console := console w ++ [error]; host := host w |}.

(** [defaultOnError(error)]. *)
Definition defaultOnError : Handler :=
  fun error w => Normal (consoleError error w).

(** [Props]; an optional callback that is not given is [None]. *)
Record Props : Type := {
  children : Node;
  onError : option Handler;
  getMessageFallback : option (Info -> string);
  messages : Value;
  contextValues : ContextValues
}.

(** The value given to [IntlContext.Provider]:
    [{...contextValues, messages, onError, getMessageFallback}]. *)
Record ContextValue : Type := {
  valueContextValues : ContextValues;
  valueMessages : Value;
  valueOnError : Handler;
  valueGetMessageFallback : Info -> string
}.

(** [<IntlContext.Provider value={value}>{children}</IntlContext.Provider>]. *)
Record Element : Type := {
  value : ContextValue;
  elementChildren : Node
}.

(** What a call of [IntlProvider] leaves: the effect it registered with
    [useEffect], if any, and the element it returned. *)
Record Rendered : Type := {
  effect : option (World -> Completion World);
  element : Element
}.

(** [validateMessages()], for the [messages] and the [onError] of the
    enclosing call of [IntlProvider]. *)
Definition validateMessages (messages : Value) (onError : Handler)
  (w : World) : Completion World :=
  if negb (truthy messages) then Normal w
  else
    bind (validateMessagesSegment messages [] Undefined)
      (fun invalidKeyLabels =>
         if Nat.ltb 0 (List.length invalidKeyLabels)
         then onError
                (newIntlError INVALID_KEY
                   (invalidKeyMessage invalidKeyLabels))
                w
         else Normal w).

(** A default parameter: the default stands in for a prop that is not
    given. *)
Definition orDefault {A : Type} (given : option A) (default : A) : A :=
  match given with
  | Some a => a
  | None => default
  end.

(** [IntlProvider(props)], for the build flag [__DEV__]. *)
Definition IntlProvider (__DEV__ : bool) (props : Props) : Rendered :=
  let onError := orDefault (onError props) defaultOnError in
  let getMessageFallback :=
    orDefault (getMessageFallback props)
      (fun info => defaultGetMessageFallback (key info) (namespace info)) in
  let messages := messages props in
  {| effect :=
       if __DEV__ then Some (validateMessages messages onError) else None;
     element :=
       {| value :=
            {| valueContextValues := contextValues props;
               valueMessages := messages;
               valueOnError := onError;
               valueGetMessageFallback := getMessageFallback |};
          elementChildren := children props |} |}.

(** Running the effect a call of [IntlProvider] registered; with no
    effect registered nothing happens. *)
Definition runEffect (rendered : Rendered) (w : World) : Completion World :=
  match effect rendered with
  | Some run => run w
  | None => Normal w
  end.

End WithHost.

Arguments console {Host} _.
Arguments host {Host} _.
Arguments Build_World {Host} _ _.
Arguments consoleError {Host} _ _.
Arguments defaultOnError {Host} _ _.
Arguments validateMessages {Host} _ _ _.
Arguments onError {Host Node ContextValues} _.
Arguments getMessageFallback {Host Node ContextValues} _.
Arguments messages {Host Node ContextValues} _.
Arguments children {Host Node ContextValues} _.
Arguments contextValues {Host Node ContextValues} _.
Arguments Build_Props {Host Node ContextValues} _ _ _ _ _.
Arguments IntlProvider {Host Node ContextValues} _ _.
Arguments runEffect {Host Node ContextValues} _ _.
Arguments effect {Host Node ContextValues} _.
Arguments element {Host Node ContextValues} _.
Arguments value {Host Node ContextValues} _.
Arguments valueOnError {Host ContextValues} _.
Arguments valueMessages {Host ContextValues} _.
Arguments valueGetMessageFallback {Host ContextValues} _.
Arguments valueContextValues {Host ContextValues} _.
Arguments elementChildren {Host Node ContextValues} _.
Arguments Build_Info _ _ _ : clear implicits.

End Provider.

(** * Properties *)

(** ** The recursive equation of [validateMessagesSegment] *)

Lemma includes_cons (c : ascii) (s : string) :
  includes (String c s) "." = Ascii.eqb c "." || includes s ".".
Proof.
  change (includes (String c s) ".")
    with (Ascii.eqb "." c && startsWith s "" || includes s ".").
  rewrite Ascii.eqb_sym. now destruct s, (Ascii.eqb c ".").
Qed.

Lemma includes_string_of_uint (d : Decimal.uint) :
  includes (NilEmpty.string_of_uint d) "." = false.
Proof.
  induction d; [reflexivity | simpl NilEmpty.string_of_uint ..];
    rewrite includes_cons, IHd; reflexivity.
Qed.

Lemma includes_indexKey (i : nat) : includes (indexKey i) "." = false.
Proof. apply includes_string_of_uint. Qed.

Lemma forEach_ext {A S : Type} (f g : A -> S -> Completion S)
  (array : list A) :
  Forall (fun x => forall s, f x s = g x s) array ->
  forall s, forEach f array s = forEach g array s.
Proof.
  induction 1 as [| x rest Hx _ IH]; intro s; simpl.
  - reflexivity.
  - rewrite Hx. destruct (g x s); simpl; [apply IH | reflexivity].
Qed.

(** The characters of a string are never recursed into. *)
Lemma characters_are_strings (s : string) :
  Forall (fun v => typeof v = "string") (characters s).
Proof. induction s; simpl; constructor; auto. Qed.

Lemma Forall_indexedFrom {A : Type} (Q : A -> Prop) (l : list A) (i : nat) :
  Forall Q l -> Forall (fun entry => Q (snd entry)) (indexedFrom i l).
Proof.
  intro H. revert i. induction H; intro i; simpl; constructor; auto.
Qed.

(** [validateMessagesSegment] walks the entries of [messagesPart] with
    [forEach], as the source does. *)
Lemma validateMessagesSegment_eq (messagesPart : Value)
  (invalidKeyLabels : list string) (parentPath : Nullable string) :
  validateMessagesSegment messagesPart invalidKeyLabels parentPath =
  bind (entries messagesPart)
    (fun array => forEach (segmentCallback parentPath) array invalidKeyLabels).
Proof.
  destruct messagesPart as [| | b | n | s | elements | properties];
    simpl; try reflexivity.
  - apply forEach_ext.
    pose proof (Forall_indexedFrom _ _ 0 (characters_are_strings s)) as H.
    eapply Forall_impl; [| exact H].
    intros [key v] Hv labels. simpl in *.
    unfold visitEntry. now rewrite Hv.
  - generalize 0 as i. revert invalidKeyLabels.
    induction elements as [| v rest IH]; intros labels i; simpl.
    + reflexivity.
    + destruct (visitEntry _ _ _ _ _); simpl; [apply IH | reflexivity].
  - revert invalidKeyLabels.
    induction properties as [| [key v] rest IH]; intros labels; simpl.
    + reflexivity.
    + destruct (visitEntry _ _ _ _ _); simpl; [apply IH | reflexivity].
Qed.

(** Replaces the walks of the goal by the loops over their entries. *)
Ltac walk_entries :=
  rewrite !validateMessagesSegment_eq; simpl entries; simpl bind.

(** ** Runs on small dictionaries *)

Example single_offending_key :
  validateMessagesSegment (JsObject [("a.b", JsString "x")]) [] Undefined
  = Normal ["a.b"].
Proof. reflexivity. Qed.

Example nested_offending_key :
  validateMessagesSegment
    (JsObject [("group", JsObject [("a.b", JsString "x")])]) [] Undefined
  = Normal ["a.b (at group)"].
Proof. reflexivity. Qed.

Example offending_keys_across_levels :
  validateMessagesSegment
    (JsObject
       [("a.b", JsString "x");
        ("g", JsObject
                [("c.d", JsObject [("e.f", JsString "y")]);
                 ("h", JsString "z")]);
        ("i.j", JsString "w")])
    [] Undefined
  = Normal ["a.b"; "c.d (at g)"; "e.f (at g.c.d)"; "i.j"].
Proof. reflexivity. Qed.

Example one_key_is_reported_in_the_singular :
  validateMessages (JsObject [("a.b", JsString "x")]) []
  = Normal
      {| collected := ["a.b"];
         reported :=
           [newIntlError INVALID_KEY
              (invalidKeyPreamble ++ "key: a.b")] |}.
Proof. reflexivity. Qed.

Example two_keys_are_reported_in_the_plural :
  validateMessages
    (JsObject [("a.b", JsString "x"); ("g", JsObject [("c.d", JsString "y")])])
    []
  = Normal
      {| collected := ["a.b"; "c.d (at g)"];
         reported :=
           [newIntlError INVALID_KEY
              (invalidKeyPreamble ++ "keys: a.b, c.d (at g)")] |}.
Proof. reflexivity. Qed.

Example empty_dictionary_is_not_reported :
  validateMessages (JsObject []) []
  = Normal {| collected := []; reported := [] |}.
Proof. reflexivity. Qed.

(** ** The labels a call appends

    A call only appends to [invalidKeyLabels]: what it appends does not
    depend on what the array already holds. *)

Lemma forEach_appended {A : Type}
  (callback : A -> list string -> Completion (list string))
  (array : list A) :
  Forall (fun x => forall labels,
            callback x labels = appended labels (callback x [])) array ->
  forall labels,
    forEach callback array labels =
    appended labels (forEach callback array []).
Proof.
  unfold appended.
  induction 1 as [| x rest Hx _ IH]; intro labels; simpl.
  - now rewrite app_nil_r.
  - rewrite Hx. destruct (callback x []) as [new |]; simpl; [| reflexivity].
    rewrite IH, (IH new).
    destruct (forEach callback rest []); simpl; [| reflexivity].
    now rewrite app_assoc.
Qed.

Lemma segmentCallback_appended (parentPath : Nullable string)
  (key : string) (v : Value) :
  (forall labels path,
     validateMessagesSegment v labels path =
     appended labels (validateMessagesSegment v [] path)) ->
  forall labels,
    segmentCallback parentPath (key, v) labels =
    appended labels (segmentCallback parentPath (key, v) []).
Proof.
  intros IH labels. unfold segmentCallback, visitEntry, appended.
  destruct (includes key "."), (String.eqb (typeof v) "object"); simpl;
    rewrite ?app_nil_r; try reflexivity.
  - rewrite IH, (IH [_]). unfold appended.
    destruct (validateMessagesSegment v [] _); simpl; [| reflexivity].
    now rewrite <- app_assoc.
  - apply IH.
Qed.

Lemma validateMessagesSegment_appended (messagesPart : Value) :
  forall labels parentPath,
    validateMessagesSegment messagesPart labels parentPath =
    appended labels (validateMessagesSegment messagesPart [] parentPath).
Proof.
  induction messagesPart as [| | b | n | s | elements IH | properties IH]
    using Value_ind; intros labels parentPath;
    walk_entries;
    try reflexivity; try (unfold appended; simpl; now rewrite app_nil_r).
  - apply forEach_appended.
    pose proof (Forall_indexedFrom _ _ 0 (characters_are_strings s)) as H.
    eapply Forall_impl; [| exact H].
    intros [key v] Hv acc. simpl in Hv.
    unfold segmentCallback, visitEntry, appended. rewrite Hv. simpl.
    destruct (includes key "."); simpl; now rewrite ?app_nil_r.
  - apply forEach_appended.
    pose proof (Forall_indexedFrom _ _ 0 IH) as H.
    eapply Forall_impl; [| exact H].
    intros [key v] Hv. apply segmentCallback_appended, Hv.
  - apply forEach_appended.
    eapply Forall_impl; [| exact IH].
    intros [key v] Hv. apply segmentCallback_appended, Hv.
Qed.

(** ** When the walk completes *)

Lemma forEach_normal {A S : Type} (callback : A -> S -> Completion S)
  (array : list A) :
  Forall (fun x => forall s, exists s', callback x s = Normal s') array ->
  forall s, exists s', forEach callback array s = Normal s'.
Proof.
  induction 1 as [| x rest Hx _ IH]; intro s; simpl.
  - now exists s.
  - destruct (Hx s) as [s' ->]. apply IH.
Qed.

Lemma forEach_throw {A S : Type} (callback : A -> S -> Completion S)
  (array : list A) :
  Exists (fun x => forall s, callback x s = Throw TypeError) array ->
  forall s, forEach callback array s = Throw TypeError.
Proof.
  induction 1 as [x rest Hx | x rest _ IH]; intro s; simpl.
  - now rewrite Hx.
  - destruct (callback x s) as [s' | []]; simpl; [apply IH | reflexivity].
Qed.

Lemma hasNull_typeof (v : Value) :
  hasNull v = true -> typeof v = "object".
Proof. now destruct v. Qed.

Lemma Exists_indexedFrom {A : Type} (Q : A -> Prop) (l : list A) (i : nat) :
  Exists Q l -> Exists (fun entry => Q (snd entry)) (indexedFrom i l).
Proof.
  intro H. revert i. induction H; intro i; simpl; [left | right]; auto.
Qed.

Lemma segmentCallback_normal (parentPath : Nullable string)
  (key : string) (v : Value) :
  (typeof v = "object" ->
   forall labels path, exists labels',
     validateMessagesSegment v labels path = Normal labels') ->
  forall labels, exists labels',
    segmentCallback parentPath (key, v) labels = Normal labels'.
Proof.
  intros Hv labels. unfold segmentCallback, visitEntry.
  destruct (String.eqb_spec (typeof v) "object") as [Hobj | _].
  - apply (Hv Hobj).
  - eexists; reflexivity.
Qed.

Lemma segmentCallback_throw (parentPath : Nullable string)
  (key : string) (v : Value) :
  typeof v = "object" ->
  (forall labels path,
     validateMessagesSegment v labels path = Throw TypeError) ->
  forall labels, segmentCallback parentPath (key, v) labels = Throw TypeError.
Proof.
  intros Hobj Hv labels. unfold segmentCallback, visitEntry.
  rewrite Hobj. simpl. apply Hv.
Qed.

(** A value without [null] inside is walked to the end, unless it is
    [undefined] itself. *)
Lemma validateMessagesSegment_normal (messagesPart : Value) :
  hasNull messagesPart = false ->
  messagesPart <> JsUndefined ->
  forall labels parentPath, exists labels',
    validateMessagesSegment messagesPart labels parentPath = Normal labels'.
Proof.
  induction messagesPart as [| | b | n | s | elements IH | properties IH]
    using Value_ind; intros Hnull Hdef labels parentPath;
    try congruence; try discriminate;
    walk_entries;
    try (eexists; reflexivity).
  - apply forEach_normal.
    pose proof (Forall_indexedFrom _ _ 0 (characters_are_strings s)) as H.
    eapply Forall_impl; [| exact H].
    intros [key v] Hv. apply segmentCallback_normal.
    simpl in Hv. rewrite Hv. discriminate.
  - apply forEach_normal. simpl in Hnull.
    assert (Forall (fun v => typeof v = "object" ->
              forall labels path, exists labels',
                validateMessagesSegment v labels path = Normal labels')
              elements) as H.
    { rewrite Forall_forall in *. intros v Hin Hobj.
      apply IH; [exact Hin | |].
      - destruct (hasNull v) eqn:Hv; [| reflexivity].
        rewrite <- Hnull. symmetry. apply existsb_exists. now exists v.
      - intros ->. discriminate. }
    apply (Forall_indexedFrom _ _ 0) in H.
    eapply Forall_impl; [| exact H].
    intros [key v] Hv. apply segmentCallback_normal, Hv.
  - apply forEach_normal. simpl in Hnull.
    rewrite Forall_forall in *. intros [key v] Hin.
    apply segmentCallback_normal. intros Hobj.
    apply (IH _ Hin).
    + simpl. destruct (hasNull v) eqn:Hv; [| reflexivity].
      rewrite <- Hnull. symmetry. apply existsb_exists.
      now exists (key, v).
    + simpl. intros ->. discriminate.
Qed.

(** A [null] anywhere inside makes the walk throw: [typeof null] is
    "object", and [Object.entries(null)] throws. *)
Lemma validateMessagesSegment_throw (messagesPart : Value) :
  hasNull messagesPart = true ->
  forall labels parentPath,
    validateMessagesSegment messagesPart labels parentPath = Throw TypeError.
Proof.
  induction messagesPart as [| | b | n | s | elements IH | properties IH]
    using Value_ind; intros Hnull labels parentPath;
    try discriminate; try reflexivity;
    walk_entries;
    apply forEach_throw; simpl in Hnull;
    apply existsb_exists in Hnull as [x [Hin Hx]];
    rewrite Forall_forall in IH.
  - eapply Exists_impl;
      [| apply (Exists_indexedFrom
                  (fun v => typeof v = "object" /\
                     forall labels path,
                       validateMessagesSegment v labels path = Throw TypeError)
                  elements 0);
         apply Exists_exists; exists x; repeat split;
         [exact Hin | now apply hasNull_typeof | now apply IH] ].
    intros [key v] [Hobj Hv]. now apply segmentCallback_throw.
  - apply Exists_exists. exists x. split; [exact Hin |].
    destruct x as [key v]. simpl in Hx. intro acc.
    apply segmentCallback_throw;
      [now apply hasNull_typeof | now apply (IH _ Hin)].
Qed.

(** ** The default message fallback *)

(** C10. The default [getMessageFallback] returns
    [namespace + "." + key] when a namespace is provided, and the key
    alone, without a leading separator, when the namespace is absent
    ([undefined] or [null]). *)
Theorem defaultGetMessageFallback_joins_namespace_and_key (key : string) :
  (forall namespace,
     defaultGetMessageFallback key (Defined namespace)
     = (namespace ++ "." ++ key)%string) /\
  defaultGetMessageFallback key Undefined = key /\
  defaultGetMessageFallback key Null = key.
Proof.
  unfold defaultGetMessageFallback, join.
  repeat split; intros; reflexivity.
Qed.

(** ** Reporting *)

Lemma joinElement_Defined (labels : list string) :
  map joinElement (map Defined labels) = labels.
Proof.
  induction labels as [| label rest IH]; simpl; [| rewrite IH]; reflexivity.
Qed.

(** C5. When the messages are absent ([undefined]), the validation
    returns at once: no label is collected and [onError] is not
    invoked; over a store, it returns without a recursive call (whatever
    the fuel) and leaves the state, its log included, as it was. *)
Theorem validateMessages_absent (log : list IntlError) :
  validateMessages JsUndefined log
  = Normal {| collected := []; reported := log |} /\
  forall fuel st,
    Heap.validateMessages fuel Heap.RUndefined st = Heap.Returns st.
Proof. split; reflexivity. Qed.

(** What a run does once the walk has returned its labels. *)
Lemma validateMessages_run (messages : Value) (log : list IntlError)
  (labels : list string) :
  truthy messages = true ->
  validateMessagesSegment messages [] Undefined = Normal labels ->
  validateMessages messages log
  = Normal {| collected := labels;
              reported :=
                match labels with
                | [] => log
                | _ :: _ =>
                    log ++ [newIntlError INVALID_KEY
                              (invalidKeyMessage labels)]
                end |}.
Proof.
  intros Htruthy Hwalk. unfold validateMessages.
  rewrite Htruthy, Hwalk. simpl. now destruct labels.
Qed.

(** The validation of a value without [null] inside completes. *)
Lemma validateMessages_walk (messages : Value) :
  hasNull messages = false ->
  truthy messages = true ->
  exists labels,
    validateMessagesSegment messages [] Undefined = Normal labels.
Proof.
  intros Hnull Htruthy.
  apply validateMessagesSegment_normal; [exact Hnull |].
  intros ->. discriminate.
Qed.

Lemma invalidKeyMessage_eq (labels : list string) :
  invalidKeyMessage labels
  = (invalidKeyPreamble
     ++ (if Nat.eqb (List.length labels) 1 then "key" else "keys")
     ++ ": " ++ String.concat ", " labels)%string.
Proof. unfold invalidKeyMessage, join. now rewrite joinElement_Defined. Qed.





(** C2, as amended. For every messages value that holds no [null] at
    any depth, the validation never throws: it completes normally, and
    an invalid key is signalled only through [onError]: the log grows by
    at most one error, of the kind [INVALID_KEY]. *)
Theorem validateMessages_never_throws_without_null (messages : Value)
  (log : list IntlError) :
  hasNull messages = false ->
  exists run,
    validateMessages messages log = Normal run /\
    (reported run = log \/
     exists error, reported run = log ++ [error] /\ code error = INVALID_KEY).
Proof.
  intro Hnull.
  destruct (truthy messages) eqn:Htruthy.
  - destruct (validateMessages_walk messages Hnull Htruthy)
      as [labels Hwalk].
    rewrite (validateMessages_run messages log labels Htruthy Hwalk).
    eexists; split; [reflexivity |]. simpl.
    destruct labels; [now left | right].
    eexists; split; reflexivity.
  - unfold validateMessages. rewrite Htruthy. simpl.
    eexists; split; [reflexivity | now left].
Qed.

(** The theorem at a dictionary with an array value and no [null]. *)
Lemma validateMessages_never_throws_without_null_witness :
  exists run,
    validateMessages
      (JsObject [("a.b", JsString "x"); ("list", JsArray [JsNumber 1])]) []
    = Normal run /\
    (reported run = [] \/
     exists error, reported run = [] ++ [error] /\ code error = INVALID_KEY).
Proof.
  exact (validateMessages_never_throws_without_null
           (JsObject [("a.b", JsString "x"); ("list", JsArray [JsNumber 1])])
           [] eq_refl).
Defined.

(** A [null] inside a truthy messages value makes the validation throw a
    [TypeError] before [onError] can be reached. *)
Lemma validateMessages_throws_on_null (messages : Value)
  (log : list IntlError) :
  truthy messages = true ->
  hasNull messages = true ->
  validateMessages messages log = Throw TypeError.
Proof.
  intros Htruthy Hnull. unfold validateMessages.
  rewrite Htruthy. simpl.
  now rewrite validateMessagesSegment_throw.
Qed.

(** C2, as stated, fails: a dictionary with a [null] value makes the
    validation throw. *)
Lemma null_value_makes_validation_throw :
  validateMessages (JsObject [("a", JsNull)]) [] = Throw TypeError.
Proof. reflexivity. Qed.

(** ** The labels of a dictionary *)

Lemma string_app_assoc (a b c : string) :
  ((a ++ b) ++ c = a ++ b ++ c)%string.
Proof. induction a as [| x a IH]; simpl; [| rewrite IH]; reflexivity. Qed.

Lemma concat_snoc (sep : string) (parts : list string) (last : string) :
  parts <> [] ->
  String.concat sep (parts ++ [last])
  = (String.concat sep parts ++ sep ++ last)%string.
Proof.
  induction parts as [| part rest IH]; [congruence |]. intros _.
  destruct rest as [| part' rest]; [reflexivity |].
  change (String.concat sep ((part :: part' :: rest) ++ [last]))
    with (part ++ sep ++ String.concat sep ((part' :: rest) ++ [last]))%string.
  rewrite IH by discriminate.
  change (String.concat sep (part :: part' :: rest))
    with (part ++ sep ++ String.concat sep (part' :: rest))%string.
  now rewrite !string_app_assoc.
Qed.

Lemma childPath_pathOf (ancestors : list string) (key : string) :
  childPath (pathOf ancestors) key = pathOf (ancestors ++ [key]).
Proof.
  destruct ancestors as [| a rest]; [reflexivity |].
  unfold childPath, pathOf, join.
  change ((a :: rest) ++ [key]) with (a :: (rest ++ [key])).
  destruct (rest ++ [key]) eqn:E; [now destruct rest |]. rewrite <- E.
  change (a :: rest ++ [key]) with ((a :: rest) ++ [key]).
  now rewrite concat_snoc.
Qed.

Lemma keyLabel_pathOf (ancestors : list string) (key : string) :
  keyLabel key (pathOf ancestors) = occurrenceLabel (ancestors, key).
Proof.
  unfold keyLabel, occurrenceLabel, pathOf.
  destruct ancestors as [| a rest]; [reflexivity |].
  generalize (String.concat "." (a :: rest)) as path.
  intros [| c path]; reflexivity.
Qed.

Lemma forEach_flat_map {A : Type}
  (callback : A -> list string -> Completion (list string))
  (new : A -> list string) (array : list A) :
  Forall (fun x => forall labels,
            callback x labels = Normal (labels ++ new x)) array ->
  forall labels,
    forEach callback array labels = Normal (labels ++ flat_map new array).
Proof.
  induction 1 as [| x rest Hx _ IH]; intro labels; simpl.
  - now rewrite app_nil_r.
  - rewrite Hx. simpl. rewrite IH. now rewrite app_assoc.
Qed.

Lemma map_filter_flat_map {A B C : Type} (g : B -> C) (p : B -> bool)
  (h : A -> list B) (l : list A) :
  map g (filter p (flat_map h l))
  = flat_map (fun x => map g (filter p (h x))) l.
Proof.
  induction l as [| x rest IH]; simpl; [reflexivity |].
  now rewrite filter_app, map_app, IH.
Qed.

Lemma keyOccurrences_leaf (ancestors : list string) (v : Value) :
  typeof v <> "object" -> keyOccurrences ancestors v = [].
Proof. destruct v; simpl; congruence. Qed.

(** The labels the walk of a dictionary appends: one for each offending
    key occurrence, in the order of [keyOccurrences]. *)
Lemma validateMessagesSegment_dictionary (dictionary : Value) :
  isDictionary dictionary = true ->
  forall ancestors labels,
    validateMessagesSegment dictionary labels (pathOf ancestors)
    = Normal
        (labels
         ++ map occurrenceLabel
              (filter offending (keyOccurrences ancestors dictionary))).
Proof.
  induction dictionary as [| | b | n | s | elements _ | properties IH]
    using Value_ind; try discriminate.
  intros Hdict ancestors labels.
  walk_entries.
  simpl keyOccurrences. rewrite map_filter_flat_map.
  apply forEach_flat_map.
  simpl in Hdict. rewrite forallb_forall in Hdict.
  rewrite Forall_forall in *. intros [key v] Hin acc.
  specialize (IH _ Hin). specialize (Hdict _ Hin). simpl in IH, Hdict.
  unfold segmentCallback, visitEntry. simpl fst. simpl snd.
  rewrite keyLabel_pathOf.
  assert (forall rest,
            filter offending ((ancestors, key) :: rest)
            = if includes key "."
              then (ancestors, key) :: filter offending rest
              else filter offending rest) as -> by reflexivity.
  destruct (String.eqb_spec (typeof v) "object") as [Hobj | Hleaf].
  - simpl in Hdict. rewrite childPath_pathOf, (IH Hdict).
    destruct (includes key "."); simpl; now rewrite <- ?app_assoc.
  - rewrite keyOccurrences_leaf by assumption.
    destruct (includes key "."); simpl; now rewrite ?app_nil_r.
Qed.

(** C1, as amended. For every messages dictionary, the walk returns one
    label for each key, at any nesting depth, whose name contains ".",
    and no label for any other key; the label is the key itself,
    followed by " (at P)" exactly when P is not empty, where P is the
    chain of the ancestor keys joined by ".". *)
Theorem labels_of_dictionary (messages : Value) :
  isDictionary messages = true ->
  validateMessagesSegment messages [] Undefined
  = Normal
      (map occurrenceLabel (filter offending (keyOccurrences [] messages))).
Proof.
  intro Hdict.
  apply (validateMessagesSegment_dictionary messages Hdict [] []).
Qed.

(** The theorem at a dictionary with an offending key at the top level
    and one inside the nested dictionary "group". *)
Lemma labels_of_dictionary_witness :
  isDictionary
    (JsObject
       [("a.b", JsString "x");
        ("group", JsObject [("c.d", JsString "y"); ("e", JsNumber 1)])])
  = true /\
  validateMessagesSegment
    (JsObject
       [("a.b", JsString "x");
        ("group", JsObject [("c.d", JsString "y"); ("e", JsNumber 1)])])
    [] Undefined
  = Normal ["a.b"; "c.d (at group)"].
Proof.
  split; [reflexivity |].
  exact (labels_of_dictionary
           (JsObject
              [("a.b", JsString "x");
               ("group",
                JsObject [("c.d", JsString "y"); ("e", JsNumber 1)])])
           eq_refl).
Defined.

(** C1, as stated, fails: a key below a top-level entry whose key is the
    empty string has an ancestor, and so would get the suffix " (at )",
    but the walk pushes the key alone. *)
Lemma empty_parent_key_gives_no_suffix :
  validateMessagesSegment
    (JsObject [("", JsObject [("a.b", JsString "x")])]) [] Undefined
  = Normal ["a.b"] /\
  map suffixedLabel
    (filter offending
       (keyOccurrences []
          (JsObject [("", JsObject [("a.b", JsString "x")])])))
  = ["a.b (at )"] /\
  validateMessagesSegment
    (JsObject [("", JsObject [("a.b", JsString "x")])]) [] Undefined
  <> Normal
       (map suffixedLabel
          (filter offending
             (keyOccurrences []
                (JsObject [("", JsObject [("a.b", JsString "x")])])))).
Proof. repeat split. intro H. vm_compute in H. discriminate H. Qed.

(** ** Leaves and arrays *)

Lemma walkedKeys_array (ancestors : list string) (elements : list Value) :
  walkedKeys ancestors (JsArray elements)
  = flat_map
      (fun entry =>
         (ancestors, fst entry)
         :: walkedKeys (ancestors ++ [fst entry]) (snd entry))
      (indexedFrom 0 elements).
Proof.
  simpl. generalize 0 as i.
  induction elements as [| x rest IH]; intro i; simpl;
    [| rewrite IH]; reflexivity.
Qed.

Lemma walkedKeys_leaf (ancestors : list string) (v : Value) :
  typeof v <> "object" -> walkedKeys ancestors v = [].
Proof. destruct v; simpl; congruence. Qed.

Lemma hasNull_element (elements : list Value) (v : Value) :
  existsb hasNull elements = false -> In v elements -> hasNull v = false.
Proof.
  intros Hnull Hin. destruct (hasNull v) eqn:Hv; [| reflexivity].
  rewrite <- Hnull. symmetry. apply existsb_exists. now exists v.
Qed.

Lemma hasNull_property (properties : list (string * Value))
  (key : string) (v : Value) :
  existsb (fun entry => hasNull (snd entry)) properties = false ->
  In (key, v) properties -> hasNull v = false.
Proof.
  intros Hnull Hin. destruct (hasNull v) eqn:Hv; [| reflexivity].
  rewrite <- Hnull. symmetry. apply existsb_exists. now exists (key, v).
Qed.

Lemma segmentCallback_walked (ancestors : list string) (key : string)
  (v : Value) :
  (typeof v = "object" ->
   forall labels,
     validateMessagesSegment v labels (pathOf (ancestors ++ [key]))
     = Normal
         (labels
          ++ map occurrenceLabel
               (filter offending (walkedKeys (ancestors ++ [key]) v)))) ->
  forall labels,
    segmentCallback (pathOf ancestors) (key, v) labels
    = Normal
        (labels
         ++ map occurrenceLabel
              (filter offending
                 ((ancestors, key) :: walkedKeys (ancestors ++ [key]) v))).
Proof.
  intros IH labels.
  unfold segmentCallback, visitEntry. rewrite keyLabel_pathOf.
  assert (forall rest,
            filter offending ((ancestors, key) :: rest)
            = if includes key "."
              then (ancestors, key) :: filter offending rest
              else filter offending rest) as -> by reflexivity.
  destruct (String.eqb_spec (typeof v) "object") as [Hobj | Hleaf].
  - rewrite childPath_pathOf, (IH Hobj).
    destruct (includes key "."); simpl; now rewrite <- ?app_assoc.
  - rewrite walkedKeys_leaf by assumption.
    destruct (includes key "."); simpl; now rewrite ?app_nil_r.
Qed.

(** The labels the walk of an object or array appends: one for each
    offending key among the keys visited. *)
Lemma validateMessagesSegment_walked (messagesPart : Value) :
  hasNull messagesPart = false ->
  typeof messagesPart = "object" ->
  forall ancestors labels,
    validateMessagesSegment messagesPart labels (pathOf ancestors)
    = Normal
        (labels
         ++ map occurrenceLabel
              (filter offending (walkedKeys ancestors messagesPart))).
Proof.
  induction messagesPart as [| | b | n | s | elements IH | properties IH]
    using Value_ind; try discriminate;
    intros Hnull _ ancestors labels;
    walk_entries;
    simpl in Hnull.
  - rewrite walkedKeys_array, map_filter_flat_map.
    apply forEach_flat_map.
    assert (Forall (fun v => typeof v = "object" ->
              forall ancestors labels,
                validateMessagesSegment v labels (pathOf ancestors)
                = Normal
                    (labels
                     ++ map occurrenceLabel
                          (filter offending (walkedKeys ancestors v))))
              elements) as H.
    { rewrite Forall_forall in *. intros v Hin Hobj.
      apply IH; eauto using hasNull_element. }
    apply (Forall_indexedFrom _ _ 0) in H.
    eapply Forall_impl; [| exact H].
    intros [key v] Hv acc. simpl in *.
    apply segmentCallback_walked. intros Hobj acc'. now apply Hv.
  - simpl walkedKeys. rewrite map_filter_flat_map.
    apply forEach_flat_map.
    rewrite Forall_forall in *. intros [key v] Hin acc. simpl.
    apply segmentCallback_walked. intros Hobj acc'.
    apply (IH _ Hin); eauto using hasNull_property.
Qed.

(** C3, as amended. In a dictionary whose values include arrays or
    primitives, a value whose [typeof] is not "object" (a string, a
    number, a boolean) is a leaf and is not recursed into, and an array
    value is walked like a dictionary whose keys are the indices of its
    elements: the labels are those of the offending keys among the keys
    of the objects, at any depth below objects and arrays. *)
Theorem labels_below_objects_and_arrays (messages : Value) :
  hasNull messages = false ->
  typeof messages = "object" ->
  validateMessagesSegment messages [] Undefined
  = Normal (map occurrenceLabel (filter offending (walkedKeys [] messages))).
Proof.
  intros Hnull Hobj.
  apply (validateMessagesSegment_walked messages Hnull Hobj [] []).
Qed.

(** The theorem at a dictionary with a number, a boolean, a string and
    an array: the string "p.q" inside the array is a leaf, the key "d.e"
    of the object inside the array is reported. *)
Lemma labels_below_objects_and_arrays_witness :
  validateMessagesSegment
    (JsObject
       [("n", JsNumber 1); ("b.c", JsBoolean true); ("s", JsString "x.y");
        ("list", JsArray [JsString "p.q"; JsObject [("d.e", JsString "z")]])])
    [] Undefined
  = Normal ["b.c"; "d.e (at list.1)"].
Proof.
  exact (labels_below_objects_and_arrays
           (JsObject
              [("n", JsNumber 1); ("b.c", JsBoolean true);
               ("s", JsString "x.y");
               ("list",
                JsArray [JsString "p.q"; JsObject [("d.e", JsString "z")]])])
           eq_refl eq_refl).
Defined.

(** C3, as stated, fails: an array value is walked, so an offending key
    of an object inside the array is reported, whereas no key of the
    dictionary itself (the array taken as a leaf) is offending. *)
Lemma array_value_is_walked :
  validateMessagesSegment
    (JsObject [("list", JsArray [JsObject [("a.b", JsString "x")]])])
    [] Undefined
  = Normal ["a.b (at list.0)"] /\
  map occurrenceLabel
    (filter offending
       (keyOccurrences []
          (JsObject [("list", JsArray [JsObject [("a.b", JsString "x")]])])))
  = [] /\
  validateMessagesSegment
    (JsObject [("list", JsArray [JsObject [("a.b", JsString "x")]])])
    [] Undefined
  <> Normal
       (map occurrenceLabel
          (filter offending
             (keyOccurrences []
                (JsObject
                   [("list", JsArray [JsObject [("a.b", JsString "x")]])])))).
Proof. repeat split. intro H. vm_compute in H. discriminate H. Qed.

(** ** Only keys are checked *)

Lemma forEach_Forall2 {A S : Type} (f g : A -> S -> Completion S)
  (xs ys : list A) :
  Forall2 (fun x y => forall s, f x s = g y s) xs ys ->
  forall s, forEach f xs s = forEach g ys s.
Proof.
  induction 1 as [| x y xs ys Hxy _ IH]; intro s; simpl.
  - reflexivity.
  - rewrite Hxy. destruct (g y s); simpl; [apply IH | reflexivity].
Qed.

Lemma Forall2_indexedFrom {A B : Type} (R : A -> B -> Prop)
  (xs : list A) (ys : list B) (i : nat) :
  Forall2 R xs ys ->
  Forall2 (fun p q => fst p = fst q /\ R (snd p) (snd q))
    (indexedFrom i xs) (indexedFrom i ys).
Proof.
  intro H. revert i. induction H; intro i; simpl; constructor; auto.
Qed.

Lemma sameShape_array (xs ys : list Value) :
  sameShape (JsArray xs) (JsArray ys) = true ->
  Forall2 (fun x y => sameShape x y = true) xs ys.
Proof.
  simpl. revert ys.
  induction xs as [| x xs IH]; intros [| y ys] H;
    try discriminate; constructor;
    apply andb_true_iff in H as [Hxy H]; auto.
Qed.

Lemma sameShape_object (ps qs : list (string * Value)) :
  sameShape (JsObject ps) (JsObject qs) = true ->
  Forall2 (fun p q => fst p = fst q /\ sameShape (snd p) (snd q) = true)
    ps qs.
Proof.
  simpl. revert qs.
  induction ps as [| p ps IH]; intros [| q qs] H;
    try discriminate; constructor;
    apply andb_true_iff in H as [Hpq H]; auto.
  apply andb_true_iff in Hpq as [Hkey Hpq].
  now apply String.eqb_eq in Hkey.
Qed.

Lemma sameShape_typeof (a b : Value) :
  sameShape a b = true -> typeof a = typeof b.
Proof. destruct a, b; simpl; congruence. Qed.

(** A string is walked character by character: its keys are indices and
    its values one-character strings, so nothing is appended. *)
Lemma validateMessagesSegment_string (s : string) (labels : list string)
  (parentPath : Nullable string) :
  validateMessagesSegment (JsString s) labels parentPath = Normal labels.
Proof.
  rewrite validateMessagesSegment_eq. simpl.
  generalize 0 as i. revert labels.
  induction s as [| c s IH]; intros labels i; simpl; [reflexivity |].
  unfold visitEntry. rewrite includes_indexKey. simpl. apply IH.
Qed.

Lemma segmentCallback_sameShape (parentPath : Nullable string)
  (p q : string * Value) :
  fst p = fst q ->
  sameShape (snd p) (snd q) = true ->
  (forall labels path,
     validateMessagesSegment (snd p) labels path
     = validateMessagesSegment (snd q) labels path) ->
  forall labels,
    segmentCallback parentPath p labels = segmentCallback parentPath q labels.
Proof.
  destruct p as [key v], q as [key' w]. simpl.
  intros <- Hshape Hwalk labels.
  unfold segmentCallback, visitEntry.
  rewrite (sameShape_typeof _ _ Hshape).
  destruct (String.eqb (typeof w) "object"); [apply Hwalk | reflexivity].
Qed.

(** C9. Two messages values with the same nested key structure, which
    differ only in the contents of their leaf strings, give the same
    label list: the contents of a leaf string, a "." included, never
    contribute a label. *)
Theorem labels_ignore_leaf_contents (a b : Value) :
  sameShape a b = true ->
  forall labels parentPath,
    validateMessagesSegment a labels parentPath
    = validateMessagesSegment b labels parentPath.
Proof.
  revert b.
  induction a as [| | x | x | s | xs IH | ps IH] using Value_ind;
    intros [| | y | y | t | ys | qs] Hshape labels parentPath;
    try discriminate; try reflexivity.
  - now rewrite !validateMessagesSegment_string.
  - walk_entries.
    apply forEach_Forall2.
    apply sameShape_array in Hshape.
    apply (Forall2_indexedFrom _ _ _ 0) in Hshape.
    pose proof (Forall_indexedFrom _ _ 0 IH) as IH'.
    clear IH. revert IH'.
    induction Hshape as [| p q ps qs [Hkey Hpq] _ IHl];
      intro IH'; constructor.
    + apply segmentCallback_sameShape; trivial.
      inversion IH'; subst. auto.
    + apply IHl. now inversion IH'.
  - walk_entries.
    apply forEach_Forall2.
    apply sameShape_object in Hshape.
    induction Hshape as [| p q ps' qs' [Hkey Hpq] _ IHl]; constructor.
    + apply segmentCallback_sameShape; trivial.
      inversion IH; subst. auto.
    + apply IHl. now inversion IH.
Qed.

(** The theorem at two dictionaries that differ in their leaf strings,
    one of them with "." in the leaves. *)
Lemma labels_ignore_leaf_contents_witness :
  validateMessagesSegment
    (JsObject [("a.b", JsString "x.y"); ("g", JsObject [("k", JsString ".")])])
    [] Undefined
  = validateMessagesSegment
      (JsObject [("a.b", JsString "xy"); ("g", JsObject [("k", JsString "")])])
      [] Undefined.
Proof.
  exact (labels_ignore_leaf_contents
           (JsObject
              [("a.b", JsString "x.y"); ("g", JsObject [("k", JsString ".")])])
           (JsObject
              [("a.b", JsString "xy"); ("g", JsObject [("k", JsString "")])])
           eq_refl [] Undefined).
Defined.

(** ** The order of the labels *)

Lemma segmentCallback_entryLabels (parentPath : Nullable string)
  (entry : string * Value) :
  hasNull (snd entry) = false ->
  forall labels,
    segmentCallback parentPath entry labels
    = Normal (labels ++ entryLabels parentPath entry).
Proof.
  destruct entry as [key v]. simpl. intros Hnull labels.
  unfold segmentCallback, visitEntry, entryLabels. simpl fst. simpl snd.
  destruct (String.eqb_spec (typeof v) "object") as [Hobj | Hleaf].
  - rewrite validateMessagesSegment_appended. unfold appended.
    destruct (validateMessagesSegment_normal v Hnull) with
      (labels := @nil string) (parentPath := childPath parentPath key)
      as [new ->].
    { intros ->. discriminate. }
    simpl. destruct (includes key "."); simpl; now rewrite <- ?app_assoc.
  - destruct (includes key "."); simpl; now rewrite ?app_nil_r.
Qed.

(** The walk of an object appends the contributions of its entries, one
    entry after the other in the order of [Object.entries]. *)
Lemma validateMessagesSegment_object (properties : list (string * Value))
  (parentPath : Nullable string) :
  Forall (fun entry => hasNull (snd entry) = false) properties ->
  forall labels,
    validateMessagesSegment (JsObject properties) labels parentPath
    = Normal (labels ++ flat_map (entryLabels parentPath) properties).
Proof.
  intros Hnull labels. rewrite validateMessagesSegment_eq. simpl.
  apply forEach_flat_map.
  eapply Forall_impl; [| exact Hnull].
  intros entry. apply segmentCallback_entryLabels.
Qed.

Lemma arrayIndex_inj (key key' : string) (n : N) :
  arrayIndex key = Some n -> arrayIndex key' = Some n -> key = key'.
Proof.
  unfold arrayIndex.
  destruct (NilEmpty.uint_of_string key) as [d |]; [| discriminate].
  destruct (NilEmpty.uint_of_string key') as [d' |]; [| discriminate].
  cbv zeta.
  destruct (_ && _) eqn:H; [| discriminate].
  destruct (String.eqb _ key' && _) eqn:H'; [| discriminate].
  apply andb_true_iff in H as [H _]. apply andb_true_iff in H' as [H' _].
  apply String.eqb_eq in H, H'.
  intros [= <-] [= E]. rewrite <- H, <- H'. now rewrite E.
Qed.

Lemma filter_partition_permutation {A : Type} (f : A -> bool) (l : list A) :
  Permutation (filter f l ++ filter (fun x => negb (f x)) l) l.
Proof.
  induction l as [| x l IH]; simpl; [constructor |].
  destruct (f x); simpl.
  - now constructor.
  - symmetry. apply Permutation_cons_app. now symmetry.
Qed.

Lemma defineProperty_other (key : string) (value : Value)
  (properties : list (string * Value)) :
  isArrayIndex key = false ->
  ~ In key (map fst properties) ->
  defineProperty key value properties = properties ++ [(key, value)].
Proof.
  unfold isArrayIndex. intros Hkey.
  induction properties as [| [k v] rest IH]; simpl; intro Hfresh;
    [reflexivity |].
  destruct (String.eqb_spec k key) as [-> | _]; [tauto |].
  unfold listedBefore.
  destruct (arrayIndex key); [discriminate |].
  rewrite IH; tauto.
Qed.

Lemma defineProperty_index (key : string) (value : Value) (n : N)
  (others : list (string * Value)) :
  arrayIndex key = Some n ->
  Forall (fun entry => isArrayIndex (fst entry) = false) others ->
  forall indexed,
    ~ In key (map fst indexed) ->
    Forall (fun entry => isArrayIndex (fst entry) = true) indexed ->
    StronglySorted indexBelow indexed ->
    exists indexed',
      defineProperty key value (indexed ++ others) = indexed' ++ others /\
      Permutation indexed' ((key, value) :: indexed) /\
      Forall (fun entry => isArrayIndex (fst entry) = true) indexed' /\
      StronglySorted indexBelow indexed'.
Proof.
  intros Hkey Hothers.
  assert (isArrayIndex key = true) as Hkey'
    by (unfold isArrayIndex; now rewrite Hkey).
  induction indexed as [| [k v] rest IH]; intros Hfresh Hindexed Hsorted.
  - exists [(key, value)]. repeat split.
    + simpl. destruct others as [| [k v] others']; [reflexivity |].
      simpl. inversion Hothers as [| ? ? Hk _]; subst. simpl in Hk.
      destruct (String.eqb_spec k key) as [-> | _]; [congruence |].
      unfold listedBefore. rewrite Hkey.
      unfold isArrayIndex in Hk. now destruct (arrayIndex k).
    + repeat constructor.
    + repeat constructor. exact Hkey'.
    + repeat constructor.
  - simpl in Hfresh.
    inversion Hindexed as [| ? ? Hk Hrest]; subst. simpl in Hk.
    inversion Hsorted as [| ? ? Hsorted' Hbelow]; subst.
    simpl. destruct (String.eqb_spec k key) as [-> | Hne]; [tauto |].
    unfold listedBefore. rewrite Hkey.
    unfold isArrayIndex in Hk.
    destruct (arrayIndex k) as [m |] eqn:Hm; [| discriminate].
    destruct (N.ltb_spec n m) as [Hlt | Hge].
    + exists ((key, value) :: (k, v) :: rest). repeat split.
      * reflexivity.
      * repeat constructor; [exact Hkey' | | exact Hrest].
        simpl; unfold isArrayIndex; now rewrite Hm.
      * constructor; [now constructor |].
        constructor.
        -- unfold indexBelow. simpl. now rewrite Hkey, Hm.
        -- eapply Forall_impl; [| exact Hbelow].
           intros [k' v']. unfold indexBelow. simpl. rewrite Hkey, Hm.
           destruct (arrayIndex k'); [lia | trivial].
    + destruct IH as [rest' [Hdef [Hperm [Hall Hsort]]]]; try tauto.
      exists ((k, v) :: rest'). repeat split.
      * simpl. now rewrite Hdef.
      * rewrite Hperm. apply perm_swap.
      * constructor; [| exact Hall].
        simpl; unfold isArrayIndex; now rewrite Hm.
      * constructor; [exact Hsort |].
        eapply Permutation_Forall; [symmetry; exact Hperm |].
        constructor; [| exact Hbelow].
        unfold indexBelow. simpl. rewrite Hm, Hkey.
        assert (n <> m) by
          (intros ->; apply Hne; eauto using arrayIndex_inj).
        lia.
Qed.

(** The properties of an object created from distinct keys: the entries
    whose keys are array indices, in ascending order of their indices,
    followed by the other entries in insertion order. *)
Lemma objectOf_order (insertions : list (string * Value)) :
  NoDup (map fst insertions) ->
  exists indexed,
    objectOf insertions
    = JsObject
        (indexed
         ++ filter (fun entry => negb (isArrayIndex (fst entry))) insertions)
    /\ Permutation indexed
         (filter (fun entry => isArrayIndex (fst entry)) insertions)
    /\ Forall (fun entry => isArrayIndex (fst entry) = true) indexed
    /\ StronglySorted indexBelow indexed.
Proof.
  unfold objectOf.
  induction insertions as [| [key value] insertions IH] using rev_ind;
    intro Hdup.
  - exists []. repeat split; constructor.
  - rewrite map_app in Hdup. simpl in Hdup.
    apply NoDup_remove in Hdup as [Hdup Hfresh]. rewrite app_nil_r in *.
    destruct (IH Hdup) as [indexed [Hobj [Hperm [Hall Hsorted]]]].
    injection Hobj as Hobj.
    rewrite fold_left_app, !filter_app, Hobj. simpl.
    assert (~ In key
              (map fst
                 (indexed
                  ++ filter (fun entry => negb (isArrayIndex (fst entry)))
                       insertions))) as Hfresh'.
    { intro Hin. apply Hfresh.
      eapply Permutation_in; [| exact Hin].
      apply Permutation_map. rewrite Hperm.
      apply filter_partition_permutation. }
    destruct (isArrayIndex key) eqn:Hkey; simpl.
    + unfold isArrayIndex in Hkey.
      destruct (arrayIndex key) as [n |] eqn:Hn; [| discriminate].
      destruct (defineProperty_index key value n
                  (filter (fun entry => negb (isArrayIndex (fst entry)))
                     insertions) Hn) with (indexed := indexed)
        as [indexed' [Hdef [Hperm' [Hall' Hsorted']]]]; trivial.
      * apply Forall_forall. intros entry Hin.
        apply filter_In in Hin as [_ Hin].
        now apply negb_true_iff in Hin.
      * rewrite map_app, in_app_iff in Hfresh'. tauto.
      * exists indexed'. rewrite app_nil_r. repeat split; trivial.
        -- now rewrite Hdef.
        -- rewrite Hperm', Hperm. apply Permutation_cons_append.
    + exists indexed. rewrite app_nil_r.
      rewrite defineProperty_other by trivial.
      rewrite <- app_assoc. repeat split; trivial.
Qed.

(** C6, as amended. The label list is produced in depth-first discovery
    order following, at each level, the order in which [Object.entries]
    lists the entries: the entries whose keys are array indices first,
    in ascending order of their indices, then the other entries in
    insertion order.  The entries are visited in that order, the label
    of an invalid key is emitted before any label from its subtree, and
    all labels of one entry's subtree precede those of later entries. *)
Theorem labels_follow_entries_order (insertions : list (string * Value))
  (parentPath : Nullable string) :
  NoDup (map fst insertions) ->
  hasNull (JsObject insertions) = false ->
  exists indexed,
    Permutation indexed
      (filter (fun entry => isArrayIndex (fst entry)) insertions) /\
    StronglySorted indexBelow indexed /\
    validateMessagesSegment (objectOf insertions) [] parentPath
    = Normal
        (flat_map (entryLabels parentPath)
           (indexed
            ++ filter (fun entry => negb (isArrayIndex (fst entry)))
                 insertions)).
Proof.
  intros Hdup Hnull.
  destruct (objectOf_order insertions Hdup)
    as [indexed [Hobj [Hperm [_ Hsorted]]]].
  exists indexed. repeat split; trivial.
  rewrite Hobj. apply validateMessagesSegment_object with (labels := []).
  eapply Permutation_Forall.
  - symmetry. rewrite Hperm. apply filter_partition_permutation.
  - apply Forall_forall. intros [key v] Hin.
    simpl in *. eauto using hasNull_property.
Qed.

(** The theorem at an object created with the key "a.b" first and the
    array index "7" second. *)
Lemma labels_follow_entries_order_witness :
  exists indexed,
    Permutation indexed [("7", JsObject [("c.d", JsString "y")])] /\
    StronglySorted indexBelow indexed /\
    validateMessagesSegment
      (objectOf
         [("a.b", JsString "x"); ("7", JsObject [("c.d", JsString "y")])])
      [] Undefined
    = Normal
        (flat_map (entryLabels Undefined)
           (indexed ++ [("a.b", JsString "x")])).
Proof.
  refine (labels_follow_entries_order
            [("a.b", JsString "x"); ("7", JsObject [("c.d", JsString "y")])]
            Undefined _ eq_refl).
  repeat constructor; simpl; intuition discriminate.
Defined.

(** C6, as stated, fails: a key that is an array index is visited before
    the keys inserted ahead of it, so the labels of its subtree come
    first, whereas the insertion order puts them last. *)
Lemma array_index_key_is_visited_first :
  validateMessagesSegment
    (objectOf
       [("a.b", JsString "x"); ("0", objectOf [("c.d", JsString "y")])])
    [] Undefined
  = Normal ["c.d (at 0)"; "a.b"] /\
  flat_map (entryLabels Undefined)
    [("a.b", JsString "x"); ("0", objectOf [("c.d", JsString "y")])]
  = ["a.b"; "c.d (at 0)"] /\
  validateMessagesSegment
    (objectOf
       [("a.b", JsString "x"); ("0", objectOf [("c.d", JsString "y")])])
    [] Undefined
  <> Normal
       (flat_map (entryLabels Undefined)
          [("a.b", JsString "x"); ("0", objectOf [("c.d", JsString "y")])]).
Proof. repeat split. intro H. vm_compute in H. discriminate H. Qed.

(** ** The validation over a store: agreement with the walk of the tree *)

Lemma nth_error_update_same (cells : list Heap.Cell) (l : Heap.Location)
  (c : Heap.Cell) :
  l < List.length cells -> nth_error (Heap.update cells l c) l = Some c.
Proof.
  revert l. induction cells as [| x rest IH]; intros [| l] H; simpl in *;
    try lia; [reflexivity | apply IH; lia].
Qed.

Lemma nth_error_update_other (cells : list Heap.Cell) (l l' : Heap.Location)
  (c : Heap.Cell) :
  l <> l' -> nth_error (Heap.update cells l c) l' = nth_error cells l'.
Proof.
  revert l l'. induction cells as [| x rest IH]; intros [| l] [| l'] H;
    simpl; try reflexivity; try congruence.
  apply IH. congruence.
Qed.

Lemma update_update (cells : list Heap.Cell) (l : Heap.Location)
  (c c' : Heap.Cell) :
  Heap.update (Heap.update cells l c) l c' = Heap.update cells l c'.
Proof.
  revert l. induction cells as [| x rest IH]; intros [| l]; simpl;
    try reflexivity. now rewrite IH.
Qed.

Lemma update_same (cells : list Heap.Cell) (l : Heap.Location)
  (c : Heap.Cell) :
  nth_error cells l = Some c -> Heap.update cells l c = cells.
Proof.
  revert l. induction cells as [| x rest IH]; intros [| l] H; simpl in *;
    try discriminate.
  - now injection H as ->.
  - now rewrite IH.
Qed.

Lemma update_last (cells : list Heap.Cell) (c c' : Heap.Cell) :
  Heap.update (cells ++ [c]) (List.length cells) c' = cells ++ [c'].
Proof. induction cells as [| x rest IH]; simpl; [| rewrite IH]; reflexivity. Qed.

Lemma ready_withLabels cells array labels labels' st :
  ready cells array labels st ->
  ready cells array labels' (withLabels array labels' st).
Proof.
  intros [Hcells [Hout Hlabels]]. repeat split; simpl.
  - intros l Hl. rewrite nth_error_update_other by lia. now apply Hcells.
  - exact Hout.
  - apply nth_error_update_same.
    apply nth_error_Some. now rewrite Hlabels.
Qed.

Lemma withLabels_twice array labels labels' st :
  withLabels array labels' (withLabels array labels st)
  = withLabels array labels' st.
Proof. unfold withLabels. simpl. now rewrite update_update. Qed.

Lemma withLabels_ready cells array labels st :
  ready cells array labels st -> withLabels array labels st = st.
Proof.
  intros [_ [_ Hlabels]]. unfold withLabels.
  rewrite update_same by exact Hlabels. now destruct st.
Qed.

Lemma simulates_withLabels array labels st c o :
  simulates array (withLabels array labels st) c o -> simulates array st c o.
Proof.
  unfold simulates. destruct c as [labels' | e].
  - now rewrite withLabels_twice.
  - intros [labels' ->]. exists labels'. now rewrite withLabels_twice.
Qed.

Lemma push_ready cells array labels label st :
  ready cells array labels st ->
  Heap.push array label st
  = Heap.Returns (withLabels array (labels ++ [label]) st).
Proof.
  intros [_ [_ Hlabels]]. unfold Heap.push, withLabels, Heap.labelsCell.
  rewrite Hlabels. unfold Heap.labelsCell. now rewrite map_app.
Qed.

Lemma typeof_represents cells r t :
  Heap.represents cells r t -> Heap.typeof r = typeof t.
Proof. now destruct 1. Qed.

Lemma characters_represent cells (s : string) :
  Forall2 (Heap.represents cells) (Heap.characters s) (characters s).
Proof. induction s; simpl; constructor; [constructor | assumption]. Qed.

(** [Object.entries] on a value of the store lists the entries of the
    tree it represents. *)
Lemma entries_represents cells r t (st : Heap.State) :
  Heap.represents cells r t ->
  (forall l, l < List.length cells ->
             nth_error (Heap.heap st) l = nth_error cells l) ->
  match entries t with
  | Throw e => Heap.entries (Heap.heap st) r = Some (Throw e)
  | Normal array =>
      exists slots,
        Heap.entries (Heap.heap st) r = Some (Normal slots) /\
        Forall2
          (fun slot entry =>
             fst slot = fst entry /\
             Heap.represents cells (snd slot) (snd entry))
          slots array
  end.
Proof.
  intros Hrep Hcells.
  destruct Hrep as [| | b | n | s | l refs elements Hl Hall
                    | l slots properties Hl Hall]; simpl;
    try reflexivity; try (eexists; split; [reflexivity | constructor]).
  - eexists; split; [reflexivity |].
    apply Forall2_indexedFrom, characters_represent.
  - rewrite Hcells, Hl by (apply nth_error_Some; now rewrite Hl).
    eexists; split; [reflexivity |]. now apply Forall2_indexedFrom.
  - rewrite Hcells, Hl by (apply nth_error_Some; now rewrite Hl).
    eexists; split; [reflexivity | exact Hall].
Qed.

(** One entry: the callback over the store does what the callback over
    the tree does, provided the recursive calls agree. *)
Lemma visitEntry_simulates cells array parentPath key r v
  (recurseTree : list string -> Nullable string -> Completion (list string))
  (recurseHeap : Nullable string -> Heap.State -> Heap.Outcome) :
  Heap.represents cells r v ->
  (typeof v = "object" ->
   forall labels path st,
     ready cells array labels st ->
     simulates array st (recurseTree labels path) (recurseHeap path st)) ->
  forall labels st,
    ready cells array labels st ->
    simulates array st
      (visitEntry parentPath key v recurseTree labels)
      (Heap.visitEntry array parentPath key r recurseHeap st).
Proof.
  intros Hrep Hrec labels st Hready.
  unfold visitEntry, Heap.visitEntry.
  rewrite (typeof_represents _ _ _ Hrep).
  set (labels' := if includes key "."
                  then labels ++ [keyLabel key parentPath] else labels).
  assert ((if includes key "."
           then Heap.push array (keyLabel key parentPath) st
           else Heap.Returns st)
          = Heap.Returns (withLabels array labels' st)) as ->.
  { subst labels'. destruct (includes key ".").
    - eapply push_ready, Hready.
    - now rewrite (withLabels_ready _ _ _ _ Hready). }
  simpl Heap.andThen.
  destruct (String.eqb_spec (typeof v) "object") as [Hobj | _].
  - apply simulates_withLabels with (labels := labels').
    apply (Hrec Hobj). eapply ready_withLabels, Hready.
  - reflexivity.
Qed.

Lemma forEach_simulates cells array
  (callbackTree : string * Value -> list string -> Completion (list string))
  (callbackHeap : string * Heap.Ref -> Heap.State -> Heap.Outcome)
  (slots : list (string * Heap.Ref)) (properties : list (string * Value)) :
  Forall2
    (fun slot entry =>
       forall labels st,
         ready cells array labels st ->
         simulates array st (callbackTree entry labels)
           (callbackHeap slot st))
    slots properties ->
  forall labels st,
    ready cells array labels st ->
    simulates array st
      (forEach callbackTree properties labels)
      (Heap.forEach callbackHeap slots st).
Proof.
  induction 1 as [| slot entry slots properties Hentry _ IH];
    intros labels st Hready; simpl.
  - now rewrite (withLabels_ready _ _ _ _ Hready).
  - specialize (Hentry labels st Hready).
    destruct (callbackTree entry labels) as [labels' | e]; simpl in *.
    + rewrite Hentry. simpl.
      apply simulates_withLabels with (labels := labels').
      apply IH. eapply ready_withLabels, Hready.
    + destruct Hentry as [labels' ->]. simpl. now exists labels'.
Qed.

Lemma depth_element (elements : list Value) (v : Value) :
  In v elements ->
  depth v <= fold_right (fun x d => Nat.max (depth x) d) 0 elements.
Proof.
  induction elements as [| x rest IH]; simpl; [tauto |].
  intros [-> | Hin]; [| specialize (IH Hin)]; lia.
Qed.

Lemma depth_property (properties : list (string * Value))
  (entry : string * Value) :
  In entry properties ->
  depth (snd entry)
  <= fold_right (fun e d => Nat.max (depth (snd e)) d) 0 properties.
Proof.
  induction properties as [| x rest IH]; simpl; [tauto |].
  intros [-> | Hin]; [| specialize (IH Hin)]; lia.
Qed.

Lemma In_indexedFrom {A : Type} (l : list A) (i : nat) (entry : string * A) :
  In entry (indexedFrom i l) -> In (snd entry) l.
Proof.
  revert i. induction l as [| x rest IH]; intros i; simpl; [tauto |].
  intros [<- | Hin]; [now left | right; eauto].
Qed.

Lemma Forall2_In_r {A B : Type} (R Q : A -> B -> Prop) (xs : list A)
  (ys : list B) :
  Forall2 R xs ys ->
  (forall x y, In y ys -> R x y -> Q x y) ->
  Forall2 Q xs ys.
Proof.
  induction 1 as [| x y xs ys Hxy _ IH]; intro Himp; constructor.
  - apply Himp; [now left | assumption].
  - apply IH. intros. apply Himp; [now right | assumption].
Qed.

(** The walk over the store simulates the walk of the tree the messages
    represent, whenever the fuel covers the depth of the tree. *)
Lemma validateMessagesSegment_simulates (t : Value) :
  forall fuel cells r array parentPath labels st,
    depth t <= fuel ->
    Heap.represents cells r t ->
    ready cells array labels st ->
    simulates array st
      (validateMessagesSegment t labels parentPath)
      (Heap.validateMessagesSegment fuel r array parentPath st).
Proof.
  induction t as [| | b | n | s | elements IH | properties IH]
    using Value_ind;
    intros [| fuel] cells r array parentPath labels st Hfuel Hrep Hready;
    simpl in Hfuel; try lia;
    rewrite validateMessagesSegment_eq;
    pose proof (entries_represents _ _ _ st Hrep (proj1 Hready)) as Hentries;
    simpl Heap.validateMessagesSegment;
    simpl entries in *; simpl bind.
  - rewrite Hentries. exists labels.
    now rewrite (withLabels_ready _ _ _ _ Hready).
  - rewrite Hentries. exists labels.
    now rewrite (withLabels_ready _ _ _ _ Hready).
  - destruct Hentries as [slots [-> Hslots]]. inversion Hslots. simpl.
    now rewrite (withLabels_ready _ _ _ _ Hready).
  - destruct Hentries as [slots [-> Hslots]]. inversion Hslots. simpl.
    now rewrite (withLabels_ready _ _ _ _ Hready).
  - destruct Hentries as [slots [-> Hslots]].
    apply forEach_simulates with (cells := cells); [| exact Hready].
    eapply Forall2_In_r; [exact Hslots |].
    intros [key r'] [key' v] Hin [Hkey Hrep'] acc st' Hready'.
    simpl in Hkey, Hrep'. subst key'.
    apply visitEntry_simulates with (cells := cells); trivial.
    apply In_indexedFrom in Hin. simpl in Hin.
    pose proof (characters_are_strings s) as Hs.
    rewrite Forall_forall in Hs. rewrite (Hs _ Hin). discriminate.
  - destruct Hentries as [slots [-> Hslots]].
    apply forEach_simulates with (cells := cells); [| exact Hready].
    eapply Forall2_In_r; [exact Hslots |].
    intros [key r'] [key' v] Hin [Hkey Hrep'] acc st' Hready'.
    simpl in Hkey, Hrep'. subst key'.
    apply visitEntry_simulates with (cells := cells); trivial.
    intros _ acc' path st'' Hready''.
    apply In_indexedFrom in Hin. simpl in Hin.
    rewrite Forall_forall in IH. apply (IH _ Hin _ cells); trivial.
    apply depth_element in Hin. lia.
  - destruct Hentries as [slots [-> Hslots]].
    apply forEach_simulates with (cells := cells); [| exact Hready].
    eapply Forall2_In_r; [exact Hslots |].
    intros [key r'] [key' v] Hin [Hkey Hrep'] acc st' Hready'.
    simpl in Hkey, Hrep'. subst key'.
    apply visitEntry_simulates with (cells := cells); trivial.
    intros _ acc' path st'' Hready''.
    rewrite Forall_forall in IH. apply (IH _ Hin _ cells); trivial.
    apply depth_property in Hin. simpl in *. lia.
Qed.

(** ** Runs of the validation over a store *)

Lemma represents_extend (t : Value) :
  forall cells created r,
    Heap.represents cells r t -> Heap.represents (cells ++ created) r t.
Proof.
  induction t as [| | b | n | s | elements IH | properties IH]
    using Value_ind; intros cells created r Hrep;
    inversion Hrep as [| | | | | l refs elements' Hl Hall
                       | l slots properties' Hl Hall]; subst;
    try constructor.
  - apply Heap.represents_array with (refs := refs).
    + rewrite nth_error_app1; [exact Hl |].
      apply nth_error_Some. now rewrite Hl.
    + clear Hl Hrep. induction Hall as [| r v refs elements Hrv _ IHall];
        constructor; inversion IH; subst; auto.
  - apply Heap.represents_object with (slots := slots).
    + rewrite nth_error_app1; [exact Hl |].
      apply nth_error_Some. now rewrite Hl.
    + clear Hl Hrep.
      induction Hall as [| slot entry slots properties [Hkey Hrv] _ IHall];
        constructor; inversion IH; subst; auto.
Qed.

Lemma truthy_represents cells r t :
  Heap.represents cells r t -> Heap.truthy r = truthy t.
Proof. now destruct 1. Qed.

Lemma strings_labels (labels : list string) :
  Heap.strings (map Heap.RString labels) = Some labels.
Proof.
  induction labels as [| label rest IH]; simpl; [| rewrite IH]; reflexivity.
Qed.

Lemma ready_fresh cells log :
  ready cells (List.length cells) []
    {| Heap.heap := cells ++ [Heap.ArrayCell []]; Heap.log := log |}.
Proof.
  repeat split; simpl.
  - intros l Hl. now apply nth_error_app1.
  - lia.
  - rewrite nth_error_app2, Nat.sub_diag by lia. reflexivity.
Qed.

(** A run over the store does what the run over the tree does: it
    creates the array of labels, next to the cells that were there, and
    reports through [onError]. *)
Lemma validateMessages_simulates cells messages t log fuel :
  Heap.represents cells messages t ->
  depth t <= fuel ->
  match validateMessages t log with
  | Normal run =>
      Heap.validateMessages fuel messages
        {| Heap.heap := cells; Heap.log := log |}
      = Heap.Returns
          {| Heap.heap :=
               cells ++ (if truthy t
                         then [Heap.labelsCell (collected run)]
                         else []);
             Heap.log := reported run |}
  | Throw e =>
      exists labels,
        Heap.validateMessages fuel messages
          {| Heap.heap := cells; Heap.log := log |}
        = Heap.Throws e
            {| Heap.heap := cells ++ [Heap.labelsCell labels];
               Heap.log := log |}
  end.
Proof.
  intros Hrep Hfuel.
  unfold validateMessages, Heap.validateMessages.
  rewrite (truthy_represents _ _ _ Hrep).
  destruct (truthy t); simpl negb; cbv iota.
  2: { simpl. now rewrite app_nil_r. }
  simpl Heap.heap. simpl Heap.log.
  pose proof (validateMessagesSegment_simulates t fuel cells messages
                (List.length cells) Undefined [] _ Hfuel Hrep
                (ready_fresh cells log)) as Hsim.
  destruct (validateMessagesSegment t [] Undefined) as [labels | e];
    simpl in Hsim |- *.
  - rewrite Hsim. unfold withLabels. simpl. rewrite update_last.
    rewrite nth_error_app2, Nat.sub_diag by lia. simpl.
    rewrite strings_labels.
    destruct (Nat.ltb 0 (List.length labels)); reflexivity.
  - destruct Hsim as [labels ->]. exists labels.
    unfold withLabels. simpl. now rewrite update_last.
Qed.

(** C8. Running the validation leaves the messages dictionary unchanged:
    every object that was in the store is as it was (the run only adds
    its array of labels), so the messages still are the same tree: no
    key or value at any depth is added, removed or modified. *)
Theorem validation_leaves_messages_unchanged cells messages t log fuel :
  Heap.represents cells messages t ->
  depth t <= fuel ->
  exists st,
    (Heap.validateMessages fuel messages
       {| Heap.heap := cells; Heap.log := log |} = Heap.Returns st
     \/ Heap.validateMessages fuel messages
          {| Heap.heap := cells; Heap.log := log |}
        = Heap.Throws TypeError st) /\
    (exists created, Heap.heap st = cells ++ created) /\
    Heap.represents (Heap.heap st) messages t.
Proof.
  intros Hrep Hfuel.
  pose proof (validateMessages_simulates cells messages t log fuel
                Hrep Hfuel) as Hsim.
  destruct (validateMessages t log) as [run | []].
  - eexists. split; [left; exact Hsim |]. simpl.
    split; [eexists; reflexivity | now apply represents_extend].
  - destruct Hsim as [labels Hsim].
    eexists. split; [right; exact Hsim |]. simpl.
    split; [eexists; reflexivity | now apply represents_extend].
Qed.

(** The theorem at a store of two objects, the second nested in the
    first. *)
Lemma validation_leaves_messages_unchanged_witness :
  exists st,
    (Heap.validateMessages 3 (Heap.RObject 0)
       {| Heap.heap :=
            [Heap.ObjectCell
               [("a.b", Heap.RString "x"); ("g", Heap.RObject 1)];
             Heap.ObjectCell [("c.d", Heap.RString "y")]];
          Heap.log := [] |}
     = Heap.Returns st
     \/ Heap.validateMessages 3 (Heap.RObject 0)
          {| Heap.heap :=
               [Heap.ObjectCell
                  [("a.b", Heap.RString "x"); ("g", Heap.RObject 1)];
                Heap.ObjectCell [("c.d", Heap.RString "y")]];
             Heap.log := [] |}
        = Heap.Throws TypeError st) /\
    (exists created,
       Heap.heap st
       = [Heap.ObjectCell
            [("a.b", Heap.RString "x"); ("g", Heap.RObject 1)];
          Heap.ObjectCell [("c.d", Heap.RString "y")]]
         ++ created) /\
    Heap.represents (Heap.heap st) (Heap.RObject 0)
      (JsObject
         [("a.b", JsString "x"); ("g", JsObject [("c.d", JsString "y")])]).
Proof.
  refine (validation_leaves_messages_unchanged
            [Heap.ObjectCell
               [("a.b", Heap.RString "x"); ("g", Heap.RObject 1)];
             Heap.ObjectCell [("c.d", Heap.RString "y")]]
            (Heap.RObject 0)
            (JsObject
               [("a.b", JsString "x");
                ("g", JsObject [("c.d", JsString "y")])])
            [] 3 _ _).
  - eapply Heap.represents_object; [reflexivity |].
    repeat constructor.
    eapply Heap.represents_object; [reflexivity |].
    repeat constructor.
  - simpl. lia.
Defined.

(** C7. Running the validation twice on the same, unchanged messages
    dictionary yields two identical label lists: each run creates its
    own array of labels, the two arrays hold the same labels, those the
    walk of the dictionary collects, and both runs report the same
    errors. *)
Theorem validation_twice_same_labels cells messages t log fuel labels :
  Heap.represents cells messages t ->
  depth t <= fuel ->
  truthy t = true ->
  validateMessagesSegment t [] Undefined = Normal labels ->
  exists st1 st2,
    Heap.validateMessages fuel messages
      {| Heap.heap := cells; Heap.log := log |} = Heap.Returns st1 /\
    Heap.validateMessages fuel messages st1 = Heap.Returns st2 /\
    Heap.heap st1 = cells ++ [Heap.labelsCell labels] /\
    Heap.heap st2
    = cells ++ [Heap.labelsCell labels; Heap.labelsCell labels] /\
    Heap.log st1 = log ++ reportOf labels /\
    Heap.log st2 = (log ++ reportOf labels) ++ reportOf labels.
Proof.
  intros Hrep Hfuel Htruthy Hwalk.
  assert (forall log',
            validateMessages t log'
            = Normal {| collected := labels;
                        reported := log' ++ reportOf labels |}) as Hrun.
  { intro log'. rewrite (validateMessages_run t log' labels Htruthy Hwalk).
    destruct labels; simpl; now rewrite ?app_nil_r. }
  pose proof (validateMessages_simulates cells messages t log fuel
                Hrep Hfuel) as Hfirst.
  pose proof (validateMessages_simulates
                (cells ++ [Heap.labelsCell labels]) messages t
                (log ++ reportOf labels) fuel
                (represents_extend t cells _ messages Hrep) Hfuel)
    as Hsecond.
  rewrite Hrun, Htruthy in Hfirst, Hsecond.
  simpl in Hfirst, Hsecond. rewrite <- app_assoc in Hsecond.
  do 2 eexists.
  split; [exact Hfirst |]. split; [exact Hsecond |]. simpl.
  repeat split.
Qed.

(** The theorem at a store of two objects, the second nested in the
    first. *)
Lemma validation_twice_same_labels_witness :
  exists st1 st2,
    Heap.validateMessages 3 (Heap.RObject 0)
      {| Heap.heap :=
           [Heap.ObjectCell
              [("a.b", Heap.RString "x"); ("g", Heap.RObject 1)];
            Heap.ObjectCell [("c.d", Heap.RString "y")]];
         Heap.log := [] |}
    = Heap.Returns st1 /\
    Heap.validateMessages 3 (Heap.RObject 0) st1 = Heap.Returns st2 /\
    Heap.heap st1
    = [Heap.ObjectCell [("a.b", Heap.RString "x"); ("g", Heap.RObject 1)];
       Heap.ObjectCell [("c.d", Heap.RString "y")]]
      ++ [Heap.labelsCell ["a.b"; "c.d (at g)"]] /\
    Heap.heap st2
    = [Heap.ObjectCell [("a.b", Heap.RString "x"); ("g", Heap.RObject 1)];
       Heap.ObjectCell [("c.d", Heap.RString "y")]]
      ++ [Heap.labelsCell ["a.b"; "c.d (at g)"];
          Heap.labelsCell ["a.b"; "c.d (at g)"]] /\
    Heap.log st1 = [] ++ reportOf ["a.b"; "c.d (at g)"] /\
    Heap.log st2
    = ([] ++ reportOf ["a.b"; "c.d (at g)"])
      ++ reportOf ["a.b"; "c.d (at g)"].
Proof.
  refine (validation_twice_same_labels
            [Heap.ObjectCell
               [("a.b", Heap.RString "x"); ("g", Heap.RObject 1)];
             Heap.ObjectCell [("c.d", Heap.RString "y")]]
            (Heap.RObject 0)
            (JsObject
               [("a.b", JsString "x");
                ("g", JsObject [("c.d", JsString "y")])])
            [] 3 ["a.b"; "c.d (at g)"] _ _ eq_refl eq_refl).
  - eapply Heap.represents_object; [reflexivity |].
    repeat constructor.
    eapply Heap.represents_object; [reflexivity |].
    repeat constructor.
  - simpl. lia.
Defined.

(** On this store the two runs create two arrays that both hold the
    labels "a.b" and "c.d (at g)". *)
Example validation_twice_run :
  Heap.andThen
    (Heap.validateMessages 3 (Heap.RObject 0)
       {| Heap.heap :=
            [Heap.ObjectCell
               [("a.b", Heap.RString "x"); ("g", Heap.RObject 1)];
             Heap.ObjectCell [("c.d", Heap.RString "y")]];
          Heap.log := [] |})
    (Heap.validateMessages 3 (Heap.RObject 0))
  = Heap.Returns
      {| Heap.heap :=
           [Heap.ObjectCell
              [("a.b", Heap.RString "x"); ("g", Heap.RObject 1)];
            Heap.ObjectCell [("c.d", Heap.RString "y")];
            Heap.labelsCell ["a.b"; "c.d (at g)"];
            Heap.labelsCell ["a.b"; "c.d (at g)"]];
         Heap.log :=
           [newIntlError INVALID_KEY
              (invalidKeyMessage ["a.b"; "c.d (at g)"]);
            newIntlError INVALID_KEY
              (invalidKeyMessage ["a.b"; "c.d (at g)"])] |}.
Proof. reflexivity. Qed.

(** ** What the walk writes, on any store *)

Lemma length_update (cells : list Heap.Cell) (l : Heap.Location)
  (c : Heap.Cell) :
  List.length (Heap.update cells l c) = List.length cells.
Proof.
  revert l. induction cells as [| x rest IH]; intros [| l]; simpl;
    try reflexivity. now rewrite IH.
Qed.

Lemma framed_refl array st : framed array st (Heap.Returns st).
Proof. repeat split. Qed.

Lemma framed_andThen array st o k :
  framed array st o ->
  (forall st', framed array st (Heap.Returns st') ->
               framed array st' (k st')) ->
  framed array st (Heap.andThen o k).
Proof.
  destruct o as [st' | e st' |]; simpl; trivial.
  intros Hfirst Hk. specialize (Hk st' Hfirst).
  destruct Hfirst as [Hlog [Hlen Hcells]].
  destruct (k st') as [st'' | e st'' |]; simpl in *; trivial;
    destruct Hk as [Hlog' [Hlen' Hcells']];
    (repeat split; [congruence | congruence |]);
    intros l Hl; now rewrite Hcells', Hcells.
Qed.

Lemma framed_push array label st :
  framed array st (Heap.push array label st).
Proof.
  unfold Heap.push.
  destruct (nth_error (Heap.heap st) array) as [[elements | slots] |];
    simpl; repeat split.
  - apply length_update.
  - intros l Hl. apply nth_error_update_other. congruence.
Qed.

Lemma framed_forEach {A : Type} array
  (callback : A -> Heap.State -> Heap.Outcome) (entries : list A) :
  (forall x st, framed array st (callback x st)) ->
  forall st, framed array st (Heap.forEach callback entries st).
Proof.
  intro Hcallback.
  induction entries as [| x rest IH]; intro st; simpl.
  - apply framed_refl.
  - apply framed_andThen; [apply Hcallback | intros; apply IH].
Qed.

(** X2. On any store, tree-shaped or not, and whatever the fuel, a call of
    [validateMessagesSegment] writes to no object but the array
    [invalidKeyLabels], and does not invoke [onError]. *)
Theorem walk_writes_only_the_labels (fuel : nat) :
  forall messagesPart invalidKeyLabels parentPath st,
    framed invalidKeyLabels st
      (Heap.validateMessagesSegment fuel messagesPart invalidKeyLabels
         parentPath st).
Proof.
  induction fuel as [| fuel IH]; intros part array parentPath st; simpl;
    [exact I |].
  destruct (Heap.entries (Heap.heap st) part) as [[slots | e] |];
    simpl; try (repeat split; fail).
  apply framed_forEach. intros [key r] st'.
  unfold Heap.visitEntry. simpl fst. simpl snd. apply framed_andThen.
  - destruct (includes key "."); [apply framed_push | apply framed_refl].
  - intros st'' _.
    destruct (String.eqb (Heap.typeof r) "object");
      [apply IH | apply framed_refl].
Qed.

(** X1. A [null] inside truthy messages: the run throws a [TypeError]
    and [onError] is not invoked, whatever labels were collected before
    the [null] was reached: over the store, the run ends with the log as
    it was, and with the cells as they were followed by the array of
    the labels collected so far. *)
Theorem null_inside_messages_throws cells messages t log fuel :
  Heap.represents cells messages t ->
  depth t <= fuel ->
  truthy t = true ->
  hasNull t = true ->
  validateMessages t log = Throw TypeError /\
  exists labels,
    Heap.validateMessages fuel messages
      {| Heap.heap := cells; Heap.log := log |}
    = Heap.Throws TypeError
        {| Heap.heap := cells ++ [Heap.labelsCell labels];
           Heap.log := log |}.
Proof.
  intros Hrep Hfuel Htruthy Hnull.
  pose proof (validateMessages_simulates cells messages t log fuel
                Hrep Hfuel) as Hsim.
  rewrite (validateMessages_throws_on_null t log Htruthy Hnull) in Hsim.
  split; [now apply validateMessages_throws_on_null | exact Hsim].
Qed.

(** The theorem at a dictionary with a [null] inside an array, after an
    offending key, for a log that already holds an error. *)
Lemma null_inside_messages_throws_witness :
  validateMessages
    (JsObject [("a.b", JsString "x"); ("c", JsArray [JsNull])])
    [newIntlError (OtherErrorCode "earlier") ""]
  = Throw TypeError /\
  exists labels,
    Heap.validateMessages 3 (Heap.RObject 0)
      {| Heap.heap :=
           [Heap.ObjectCell
              [("a.b", Heap.RString "x"); ("c", Heap.RObject 1)];
            Heap.ArrayCell [Heap.RNull]];
         Heap.log := [newIntlError (OtherErrorCode "earlier") ""] |}
    = Heap.Throws TypeError
        {| Heap.heap :=
             [Heap.ObjectCell
                [("a.b", Heap.RString "x"); ("c", Heap.RObject 1)];
              Heap.ArrayCell [Heap.RNull]]
             ++ [Heap.labelsCell labels];
           Heap.log := [newIntlError (OtherErrorCode "earlier") ""] |}.
Proof.
  refine (null_inside_messages_throws
            [Heap.ObjectCell
               [("a.b", Heap.RString "x"); ("c", Heap.RObject 1)];
             Heap.ArrayCell [Heap.RNull]]
            (Heap.RObject 0)
            (JsObject [("a.b", JsString "x"); ("c", JsArray [JsNull])])
            [newIntlError (OtherErrorCode "earlier") ""] 3
            _ _ eq_refl eq_refl).
  - eapply Heap.represents_object; [reflexivity |].
    repeat constructor.
    eapply Heap.represents_array; [reflexivity |].
    repeat constructor.
  - simpl. lia.
Defined.

(** X3. What a call appends to [invalidKeyLabels] does not depend on
    what the array holds when the call starts. *)
Theorem walk_appends_independently (messagesPart : Value)
  (invalidKeyLabels : list string) (parentPath : Nullable string) :
  validateMessagesSegment messagesPart invalidKeyLabels parentPath
  = bind (validateMessagesSegment messagesPart [] parentPath)
      (fun new => Normal (invalidKeyLabels ++ new)).
Proof. apply validateMessagesSegment_appended. Qed.

(** X4. A dictionary none of whose keys, at any depth, contains "."
    gives no label, and [onError] is not invoked. *)
Theorem no_offending_key_no_report (messages : Value)
  (log : list IntlError) :
  isDictionary messages = true ->
  filter offending (keyOccurrences [] messages) = [] ->
  validateMessages messages log
  = Normal {| collected := []; reported := log |}.
Proof.
  intros Hdict Hnone.
  rewrite (validateMessages_run messages log []).
  - reflexivity.
  - now destruct messages.
  - pose proof (validateMessagesSegment_dictionary messages Hdict [] [])
      as Hwalk.
    now rewrite Hnone in Hwalk.
Qed.

(** The theorem at a dictionary whose only "." is inside a leaf. *)
Lemma no_offending_key_no_report_witness :
  validateMessages
    (JsObject [("a", JsString "x.y"); ("g", JsObject [("b", JsString "z")])])
    []
  = Normal {| collected := []; reported := [] |}.
Proof.
  exact (no_offending_key_no_report
           (JsObject
              [("a", JsString "x.y"); ("g", JsObject [("b", JsString "z")])])
           [] eq_refl eq_refl).
Defined.

(** ** Message identifiers and the character "." *)

Lemma startsWith_app (s rest sub : string) :
  startsWith s sub = true -> startsWith (s ++ rest) sub = true.
Proof.
  revert s. induction sub as [| a sub IH]; intros s H.
  - now destruct (s ++ rest)%string.
  - destruct s as [| b s]; simpl in *; [discriminate |].
    apply andb_true_iff in H as [-> H]. now apply IH.
Qed.

Lemma startsWith_self (s rest : string) : startsWith (s ++ rest) s = true.
Proof.
  induction s as [| a s IH]; simpl; [now destruct rest |].
  now rewrite Ascii.eqb_refl.
Qed.

Lemma includes_app_l (s rest sub : string) :
  includes s sub = true -> includes (s ++ rest) sub = true.
Proof.
  induction s as [| a s IH]; simpl.
  - rewrite orb_false_r. destruct sub; [now destruct rest | discriminate].
  - intro H. apply orb_true_iff in H as [H | H]; apply orb_true_iff.
    + left. now apply (startsWith_app (String a s)).
    + right. now apply IH.
Qed.

Lemma includes_app_r (before s sub : string) :
  includes s sub = true -> includes (before ++ s) sub = true.
Proof.
  intro H. induction before as [| a before IH]; simpl; [exact H |].
  rewrite IH. apply orb_true_r.
Qed.

Lemma includes_self (s rest : string) : includes (s ++ rest) s = true.
Proof.
  destruct s as [| a s]; [now destruct rest |].
  change (includes (String a s ++ rest) (String a s))
    with (startsWith (String a s ++ rest) (String a s)
          || includes (s ++ rest) (String a s)).
  now rewrite startsWith_self.
Qed.

Lemma includes_app_dot (a b : string) :
  includes (a ++ "." ++ b) "." = true.
Proof. apply includes_app_r, (includes_self "." b). Qed.

(** Two paths that end in keys without "." agree only if they are the
    same path: the key is what follows the last ".". *)
Lemma dotted_path_inj (a a' k k' : string) :
  includes k "." = false ->
  includes k' "." = false ->
  (a ++ "." ++ k)%string = (a' ++ "." ++ k')%string ->
  a = a' /\ k = k'.
Proof.
  intros Hk Hk'. revert a'.
  induction a as [| c a IH]; intros [| c' a']; simpl; intro H.
  - injection H as ->. now split.
  - injection H as <- ->.
    pose proof (includes_app_dot a' k') as E. cbn [append] in E. congruence.
  - injection H as -> <-.
    pose proof (includes_app_dot a k) as E. cbn [append] in E. congruence.
  - injection H as <- H. destruct (IH _ H) as [-> ->]. now split.
Qed.

(** X5. For keys without ".", the default fallback identifies the
    message: two fallbacks are the same string only for the same key in
    the same namespace (an [undefined] and a [null] namespace both being
    no namespace). *)
Theorem defaultGetMessageFallback_identifies_dotless_keys
  (key key' : string) (namespace namespace' : Nullable string) :
  includes key "." = false ->
  includes key' "." = false ->
  defaultGetMessageFallback key namespace
  = defaultGetMessageFallback key' namespace' ->
  key = key' /\
  filter notNull [namespace] = filter notNull [namespace'].
Proof.
  intros Hkey Hkey'. unfold defaultGetMessageFallback, join.
  destruct namespace as [| | ns], namespace' as [| | ns']; simpl;
    intro H; try (now split);
    try (pose proof (includes_app_dot ns' key') as E; cbn [append] in E;
         congruence);
    try (pose proof (includes_app_dot ns key) as E; cbn [append] in E;
         congruence).
  destruct (dotted_path_inj ns ns' key key' Hkey Hkey' H) as [-> ->].
  now split.
Qed.

(** The theorem at the key "title" in the namespace "home". *)
Lemma defaultGetMessageFallback_identifies_dotless_keys_witness :
  "title" = "title" /\
  filter notNull [Defined "home"] = filter notNull [Defined "home"].
Proof.
  exact (defaultGetMessageFallback_identifies_dotless_keys
           "title" "title" (Defined "home") (Defined "home")
           eq_refl eq_refl eq_refl).
Defined.

(** X6. A key that contains "." is not told apart from nesting: the
    default fallback of the key [k1.k2] in a namespace is the fallback
    of the key [k2] in the namespace that the fallback of [k1] names. *)
Theorem defaultGetMessageFallback_dotted_key_is_nesting
  (k1 k2 : string) (namespace : Nullable string) :
  defaultGetMessageFallback (k1 ++ "." ++ k2) namespace
  = defaultGetMessageFallback k2
      (Defined (defaultGetMessageFallback k1 namespace)).
Proof.
  unfold defaultGetMessageFallback, join.
  destruct namespace as [| | ns]; simpl; try reflexivity.
  now rewrite !string_app_assoc.
Qed.

(** ** What the labels and the message hold *)

Lemma forEach_invariant {A S : Type} (I : S -> Prop)
  (callback : A -> S -> Completion S) (array : list A) :
  Forall (fun x => forall s s', callback x s = Normal s' -> I s -> I s')
    array ->
  forall s s', forEach callback array s = Normal s' -> I s -> I s'.
Proof.
  induction 1 as [| x rest Hx _ IH]; intros s s'; simpl.
  - now intros [= <-].
  - destruct (callback x s) as [s1 |] eqn:Hcall; simpl; [| discriminate].
    intros Hrest Hs. eapply IH; [exact Hrest |]. eapply Hx; eauto.
Qed.

Lemma keyLabel_includes_dot (key : string) (parentPath : Nullable string) :
  includes key "." = true -> includes (keyLabel key parentPath) "." = true.
Proof.
  intro H. unfold keyLabel.
  destruct (truthyString parentPath); [now apply includes_app_l | exact H].
Qed.

Lemma segmentCallback_labels_include_dot (parentPath : Nullable string)
  (entry : string * Value) :
  (forall labels path labels',
     validateMessagesSegment (snd entry) labels path = Normal labels' ->
     Forall (fun label => includes label "." = true) labels ->
     Forall (fun label => includes label "." = true) labels') ->
  forall labels labels',
    segmentCallback parentPath entry labels = Normal labels' ->
    Forall (fun label => includes label "." = true) labels ->
    Forall (fun label => includes label "." = true) labels'.
Proof.
  destruct entry as [key v]. simpl. intros IH labels labels'.
  unfold segmentCallback, visitEntry.
  assert (Forall (fun label => includes label "." = true) labels ->
          Forall (fun label => includes label "." = true)
            (if includes key "."
             then labels ++ [keyLabel key parentPath] else labels)) as Hown.
  { intro Hall. destruct (includes key ".") eqn:Hkey; [| exact Hall].
    apply Forall_app. split; [exact Hall |].
    constructor; [now apply keyLabel_includes_dot | constructor]. }
  destruct (String.eqb (typeof v) "object").
  - intros Hwalk Hall. eapply IH; eauto.
  - intros [= <-]. exact Hown.
Qed.

(** The walk keeps this invariant of [invalidKeyLabels]: every label
    contains ".". *)
Lemma validateMessagesSegment_labels_include_dot (messagesPart : Value) :
  forall labels parentPath labels',
    validateMessagesSegment messagesPart labels parentPath = Normal labels' ->
    Forall (fun label => includes label "." = true) labels ->
    Forall (fun label => includes label "." = true) labels'.
Proof.
  induction messagesPart as [| | b | n | s | elements IH | properties IH]
    using Value_ind; intros labels parentPath labels';
    walk_entries; try discriminate; try (now intros [= <-]);
    apply forEach_invariant.
  - pose proof (Forall_indexedFrom _ _ 0 (characters_are_strings s)) as H.
    eapply Forall_impl; [| exact H].
    intros [key v] Hv. simpl in Hv.
    apply segmentCallback_labels_include_dot. simpl.
    destruct v; try discriminate. intros acc path acc'.
    rewrite validateMessagesSegment_string. now intros [= <-].
  - apply (Forall_indexedFrom _ _ 0) in IH.
    eapply Forall_impl; [| exact IH].
    intros entry Hentry. now apply segmentCallback_labels_include_dot.
  - eapply Forall_impl; [| exact IH].
    intros entry Hentry. now apply segmentCallback_labels_include_dot.
Qed.

(** X7. Every label the walk collects contains ".", for whatever value
    is walked (arrays and strings included) and whatever parent path
    the walk starts with. *)
Theorem collected_labels_contain_dot (messagesPart : Value)
  (parentPath : Nullable string) (labels : list string) :
  validateMessagesSegment messagesPart [] parentPath = Normal labels ->
  Forall (fun label => includes label "." = true) labels.
Proof.
  intro Hwalk.
  eapply validateMessagesSegment_labels_include_dot; [exact Hwalk |].
  constructor.
Qed.

(** The theorem at a dictionary with an offending key inside an array,
    walked under the parent path "p". *)
Lemma collected_labels_contain_dot_witness :
  Forall (fun label => includes label "." = true)
    ["a.b (at p)"; "c.d (at p.list.0)"].
Proof.
  exact (collected_labels_contain_dot
           (JsObject
              [("a.b", JsString "x");
               ("list", JsArray [JsObject [("c.d", JsNumber 1)]])])
           (Defined "p") ["a.b (at p)"; "c.d (at p.list.0)"] eq_refl).
Defined.

Lemma concat_includes (sep : string) (labels : list string)
  (label : string) :
  In label labels -> includes (String.concat sep labels) label = true.
Proof.
  induction labels as [| first rest IH]; [intros [] |].
  intros [-> | Hin].
  - destruct rest; [| apply includes_self].
    rewrite <- (includes_self label ""). f_equal.
    clear. induction label as [| c l IHl]; simpl; [| rewrite <- IHl];
      reflexivity.
  - destruct rest as [| second rest]; [destruct Hin |].
    change (String.concat sep (first :: second :: rest))
      with (first ++ sep ++ String.concat sep (second :: rest))%string.
    now apply includes_app_r, includes_app_r, IH.
Qed.

(** X8. The message of the reported error names every offending key:
    each collected label is a substring of the message passed to
    [onError]. *)
Theorem reported_message_includes_every_label (messages : Value)
  (log : list IntlError) (labels : list string) (label : string) :
  truthy messages = true ->
  validateMessagesSegment messages [] Undefined = Normal labels ->
  In label labels ->
  exists error,
    validateMessages messages log
    = Normal {| collected := labels; reported := log ++ [error] |} /\
    code error = INVALID_KEY /\
    includes (message error) label = true.
Proof.
  intros Htruthy Hwalk Hin.
  rewrite (validateMessages_run messages log labels Htruthy Hwalk).
  destruct labels as [| first rest]; [destruct Hin |].
  eexists. split; [reflexivity |]. split; [reflexivity |]. simpl message.
  rewrite invalidKeyMessage_eq.
  now apply includes_app_r, includes_app_r, includes_app_r, concat_includes.
Qed.

(** The theorem at the second of two offending keys. *)
Lemma reported_message_includes_every_label_witness :
  exists error,
    validateMessages
      (JsObject
         [("a.b", JsString "x"); ("g", JsObject [("c.d", JsString "y")])])
      []
    = Normal {| collected := ["a.b"; "c.d (at g)"];
                reported := [] ++ [error] |} /\
    code error = INVALID_KEY /\
    includes (message error) "c.d (at g)" = true.
Proof.
  refine (reported_message_includes_every_label
            (JsObject
               [("a.b", JsString "x");
                ("g", JsObject [("c.d", JsString "y")])])
            [] ["a.b"; "c.d (at g)"] "c.d (at g)" eq_refl eq_refl _).
  right. now left.
Defined.

(** ** The provider *)

Lemma provider_validateMessages_run {Host : Type} (messages : Value)
  (onError : Provider.Handler Host) (w : Provider.World Host)
  (labels : list string) :
  truthy messages = true ->
  validateMessagesSegment messages [] Undefined = Normal labels ->
  Provider.validateMessages messages onError w
  = match labels with
    | [] => Normal w
    | _ :: _ =>
        onError (newIntlError INVALID_KEY (invalidKeyMessage labels)) w
    end.
Proof.
  intros Htruthy Hwalk. unfold Provider.validateMessages.
  rewrite Htruthy, Hwalk. simpl. now destruct labels.
Qed.

(** X9. In development, the effect of the provider hands the error to
    the very [onError] that the context value carries (the prop, or
    [defaultOnError] when the prop is not given), once, as its last
    action, and only when labels were collected: the completion of the
    effect is the completion of that call, so an exception thrown by
    the callback leaves the effect. *)
Theorem effect_ends_with_the_call_of_onError {Host Node ContextValues : Type}
  (props : Provider.Props Host Node ContextValues)
  (w : Provider.World Host) (labels : list string) :
  truthy (Provider.messages props) = true ->
  validateMessagesSegment (Provider.messages props) [] Undefined
  = Normal labels ->
  Provider.runEffect (Provider.IntlProvider true props) w
  = match labels with
    | [] => Normal w
    | _ :: _ =>
        Provider.valueOnError
          (Provider.value
             (Provider.element (Provider.IntlProvider true props)))
          (newIntlError INVALID_KEY (invalidKeyMessage labels)) w
    end.
Proof.
  intros Htruthy Hwalk. unfold Provider.runEffect. simpl.
  now apply provider_validateMessages_run.
Qed.

(** The theorem at a provider whose [onError] throws. *)
Lemma effect_ends_with_the_call_of_onError_witness :
  Provider.runEffect
    (Provider.IntlProvider true
       (Provider.Build_Props (Host := unit) tt
          (Some (fun _ _ => Throw TypeError)) None
          (JsObject [("a.b", JsString "x")]) tt))
    (Provider.Build_World [] tt)
  = Throw TypeError.
Proof.
  exact (effect_ends_with_the_call_of_onError
           (Provider.Build_Props (Host := unit) tt
              (Some (fun _ _ => Throw TypeError)) None
              (JsObject [("a.b", JsString "x")]) tt)
           (Provider.Build_World [] tt) ["a.b"] eq_refl eq_refl).
Defined.

(** X10. Without an [onError] prop, the effect of the provider reports
    on the console and nowhere else: it prints what [validateMessages]
    reports, after what the console held, leaves the state of the host
    application as it was, and throws exactly when the walk throws. *)
Theorem default_onError_reports_on_the_console
  {Host Node ContextValues : Type}
  (props : Provider.Props Host Node ContextValues)
  (w : Provider.World Host) :
  Provider.onError props = None ->
  Provider.runEffect (Provider.IntlProvider true props) w
  = bind (validateMessages (Provider.messages props) (Provider.console w))
      (fun run =>
         Normal (Provider.Build_World (reported run) (Provider.host w))).
Proof.
  intro Hprop. unfold Provider.runEffect. simpl. rewrite Hprop. simpl.
  unfold Provider.validateMessages, validateMessages.
  destruct (truthy (Provider.messages props)); simpl;
    [| now destruct w].
  destruct (validateMessagesSegment (Provider.messages props) [] Undefined)
    as [labels |]; simpl; [| reflexivity].
  destruct (Nat.ltb 0 (List.length labels)); simpl;
    [reflexivity | now destruct w].
Qed.

(** The theorem at a provider without [onError], for a console that
    already holds an error. *)
Lemma default_onError_reports_on_the_console_witness :
  Provider.runEffect
    (Provider.IntlProvider true
       (Provider.Build_Props (Host := nat) tt None None
          (JsObject [("a.b", JsString "x")]) tt))
    (Provider.Build_World [newIntlError (OtherErrorCode "earlier") ""] 7)
  = Normal
      (Provider.Build_World
         [newIntlError (OtherErrorCode "earlier") "";
          newIntlError INVALID_KEY (invalidKeyMessage ["a.b"])]
         7).
Proof.
  exact (default_onError_reports_on_the_console
           (Provider.Build_Props (Host := nat) tt None None
              (JsObject [("a.b", JsString "x")]) tt)
           (Provider.Build_World
              [newIntlError (OtherErrorCode "earlier") ""] 7)
           eq_refl).
Defined.

(** ** Messages that are not dictionaries, and reordered dictionaries *)

(** X12. Messages that are no object (an absent value, a string, a
    number, a boolean) are accepted silently: the validation completes
    with no label and without invoking [onError]. *)
Theorem primitive_messages_are_not_reported (messages : Value)
  (log : list IntlError) :
  typeof messages <> "object" ->
  validateMessages messages log
  = Normal {| collected := []; reported := log |}.
Proof.
  intro Hprimitive. unfold validateMessages.
  destruct (truthy messages) eqn:Htruthy; simpl; [| reflexivity].
  destruct messages; try discriminate; try (now elim Hprimitive);
    try reflexivity.
  now rewrite validateMessagesSegment_string.
Qed.

(** The theorem at messages that are a string with "." in it. *)
Lemma primitive_messages_are_not_reported_witness :
  validateMessages (JsString "a.b") []
  = Normal {| collected := []; reported := [] |}.
Proof.
  refine (primitive_messages_are_not_reported (JsString "a.b") [] _).
  discriminate.
Defined.

Lemma hasNull_properties (properties : list (string * Value)) :
  hasNull (JsObject properties) = false ->
  Forall (fun entry => hasNull (snd entry) = false) properties.
Proof.
  intro Hnull. apply Forall_forall. intros [key v] Hin.
  simpl in *. eauto using hasNull_property.
Qed.

(** X13. Which labels are collected does not depend on the order of the
    entries of the dictionary: listing the same entries in another
    order gives the same labels, in another order. *)
Theorem reordered_entries_give_the_same_labels
  (properties properties' : list (string * Value))
  (parentPath : Nullable string) :
  Permutation properties properties' ->
  hasNull (JsObject properties) = false ->
  exists labels labels',
    validateMessagesSegment (JsObject properties) [] parentPath
    = Normal labels /\
    validateMessagesSegment (JsObject properties') [] parentPath
    = Normal labels' /\
    Permutation labels labels'.
Proof.
  intros Hperm Hnull. apply hasNull_properties in Hnull.
  pose proof (Permutation_Forall Hperm Hnull) as Hnull'.
  do 2 eexists. repeat split.
  - apply validateMessagesSegment_object with (labels := []), Hnull.
  - apply validateMessagesSegment_object with (labels := []), Hnull'.
  - simpl. now apply Permutation_flat_map.
Qed.

(** The theorem at a dictionary of two entries and its reverse. *)
Lemma reordered_entries_give_the_same_labels_witness :
  exists labels labels',
    validateMessagesSegment
      (JsObject [("a.b", JsString "x"); ("g", JsObject [("c.d", JsNumber 1)])])
      [] Undefined
    = Normal labels /\
    validateMessagesSegment
      (JsObject [("g", JsObject [("c.d", JsNumber 1)]); ("a.b", JsString "x")])
      [] Undefined
    = Normal labels' /\
    Permutation labels labels'.
Proof.
  refine (reordered_entries_give_the_same_labels
            [("a.b", JsString "x"); ("g", JsObject [("c.d", JsNumber 1)])]
            [("g", JsObject [("c.d", JsNumber 1)]); ("a.b", JsString "x")]
            Undefined _ eq_refl).
  apply perm_swap.
Defined.
